(** * cldzmsg: connection hub, rate limiter, reconnect loop and session store

    A shallow embedding of the core of the cldzmsg server and client:
    - [RateLimit]: per-address connection counts and the sliding window of
      authentication attempts (package ratelimit, and the same code inlined
      in cmd/server/main.go);
    - [ClientIP]: the choice of the rate-limit key for a request;
    - [Hub]: the registry of clients and the broadcast fan-out;
    - [Conn]: the dispatch switch of the reader loop of handleWebSocket;
    - [Handler]: handleWebSocket from the request to the reader loop;
    - [Pump]: the reader loop and the writer goroutine of one connection;
    - [Reconnect]: the client's wsError / wsReconnect / wsConnected cases;
    - [Session]: encrypt, decrypt, Load, Save and Clear of the client
      session;
    - [Auth]: handleAuth and checkUserExists over the users table;
    - [Messages]: the message history of a conversation.

    Go's [int] is a 64-bit integer, modelled as [Z] with the wrap-around
    written out; [time.Time] is a number of nanoseconds; maps are [gmap];
    channels are a buffer with a closed flag; a goroutine panic is an
    explicit outcome. *)

From stdpp Require Import gmap strings list fin_maps.
From Stdlib Require Import ZArith Lia Strings.Byte.

Local Open Scope Z_scope.

(** ** Go integers *)

Definition wrap64 (z : Z) : Z := (z + 2 ^ 63) mod 2 ^ 64 - 2 ^ 63.

(** ** The rate limiter *)

Module RateLimit.

(** [time.Minute], in nanoseconds. *)
Definition minute : Z := 60 * 1000000000.

Record RateLimiter := mkRL {
  connections : gmap string Z;          (* IP -> connection count *)
  authAttempts : gmap string (list Z);  (* IP -> timestamps of auth attempts *)
  maxConns : Z;
  maxAuth : Z
}.

(** [New]: the two ceilings come from the environment; [None] stands for a
    variable that is unset, empty or not parsed by [strconv.Atoi]. *)
Definition New (envConns envAuth : option Z) : RateLimiter :=
  {| connections := ∅;
     authAttempts := ∅;
     maxConns := default 10 envConns;
     maxAuth := default 5 envAuth |}.

(** Reading a Go map at a missing key gives the zero value. *)
Definition conn_count (rl : RateLimiter) (ip : string) : Z :=
  default 0 (connections rl !! ip).

Definition attempts (rl : RateLimiter) (ip : string) : list Z :=
  default [] (authAttempts rl !! ip).

(** [t.After(cutoff)] *)
Definition after (cutoff t : Z) : bool := Z.ltb cutoff t.

Definition recent_of (now : Z) (l : list Z) : list Z :=
  List.filter (after (now - minute)) l.

(** The operations take the limiter and return the new one; [CanConnect]
    only holds the read lock, and returns the limiter it was given. *)
Definition CanConnect (ip : string) (rl : RateLimiter) : bool * RateLimiter :=
  (Z.ltb (conn_count rl ip) (maxConns rl), rl).

Definition AddConnection (ip : string) (rl : RateLimiter) : RateLimiter :=
  {| connections := <[ip := wrap64 (conn_count rl ip + 1)]> (connections rl);
     authAttempts := authAttempts rl;
     maxConns := maxConns rl;
     maxAuth := maxAuth rl |}.

Definition RemoveConnection (ip : string) (rl : RateLimiter) : RateLimiter :=
  let c := wrap64 (conn_count rl ip - 1) in
  let m := <[ip := c]> (connections rl) in
  {| connections := if Z.leb c 0 then delete ip m else m;
     authAttempts := authAttempts rl;
     maxConns := maxConns rl;
     maxAuth := maxAuth rl |}.

(** [CanAuth] reads the clock twice: [now] for the cutoff and [now'] for the
    recorded timestamp. *)
Definition CanAuth (now now' : Z) (ip : string) (rl : RateLimiter)
  : bool * RateLimiter :=
  let recent := recent_of now (attempts rl ip) in
  let m := <[ip := recent]> (authAttempts rl) in
  if Z.leb (maxAuth rl) (Z.of_nat (length recent)) then
    (false,
     {| connections := connections rl; authAttempts := m;
        maxConns := maxConns rl; maxAuth := maxAuth rl |})
  else
    (true,
     {| connections := connections rl;
        authAttempts := <[ip := default [] (m !! ip) ++ [now']]> m;
        maxConns := maxConns rl; maxAuth := maxAuth rl |}).

(** The periodic sweep: entries left without a timestamp are deleted. *)
Definition cleanup (now : Z) (rl : RateLimiter) : RateLimiter :=
  {| connections := connections rl;
     authAttempts :=
       omap (fun l => match recent_of now l with
                      | [] => None
                      | v => Some v
                      end) (authAttempts rl);
     maxConns := maxConns rl;
     maxAuth := maxAuth rl |}.

(** A history of calls on the limiter, and the timestamps it granted to one
    address. *)
Inductive call :=
| Auth (now now' : Z) (ip : string)
| Sweep (now : Z).

Fixpoint granted (ip : string) (cs : list call) (rl : RateLimiter) : list Z :=
  match cs with
  | [] => []
  | Auth now now' a :: cs' =>
      let r := CanAuth now now' a rl in
      (if fst r && bool_decide (a = ip) then [now'] else [])
        ++ granted ip cs' (snd r)
  | Sweep now :: cs' => granted ip cs' (cleanup now rl)
  end.

(** The clock never goes back: every reading is at least the one before. *)
Fixpoint clock_ok (t0 : Z) (cs : list call) : Prop :=
  match cs with
  | [] => True
  | Auth now now' _ :: cs' => t0 <= now /\ now <= now' /\ clock_ok now' cs'
  | Sweep now :: cs' => t0 <= now /\ clock_ok now cs'
  end.

(** Timestamps of [l] inside the window of one minute that ends at [w]. *)
Definition in_window (w : Z) (l : list Z) : list Z :=
  List.filter (fun t => Z.ltb (w - minute) t && Z.leb t w) l.

(** The record of the limiter for [ip] against the list [hist] of all the
    timestamps granted to [ip] so far: it holds those of them that are after
    some cutoff which is at least a minute old. *)
Definition tracks (ip : string) (t0 : Z) (hist : list Z) (rl : RateLimiter)
  : Prop :=
  (forall t, In t hist -> t <= t0) /\
  (exists cut, cut <= t0 - minute /\
               attempts rl ip = List.filter (after cut) hist) /\
  (forall w, Z.of_nat (length (in_window w hist)) <= Z.max 0 (maxAuth rl)).

(** The calls of a history that concern [ip]: its own attempts, and the
    sweeps. *)
Definition concerns (ip : string) (c : call) : bool :=
  match c with
  | Auth _ _ a => bool_decide (a = ip)
  | Sweep _ => true
  end.

Definition calls_on (ip : string) (cs : list call) : list call :=
  List.filter (concerns ip) cs.

End RateLimit.

(** ** The rate-limit key of a request *)

Module ClientIP.

(** What the handler uses of [net/http] and [net]: header names are stored
    under their canonical form, and [SplitHostPort] gives the host, the port
    and whether it failed. *)
Class NetLib := {
  CanonicalMIMEHeaderKey : string -> string;
  SplitHostPort : string -> string * string * bool
}.

Record Request := mkRequest {
  Header : gmap string (list string);
  RemoteAddr : string
}.

Section WithNet.
Context `{NetLib}.

(** [Header.Get]: the first value stored under the canonical key, or the
    empty string. *)
Definition Header_Get (h : gmap string (list string)) (key : string) : string :=
  match h !! CanonicalMIMEHeaderKey key with
  | Some (v :: _) => v
  | _ => EmptyString
  end.

Definition GetClientIP (r : Request) : string :=
  let xff := Header_Get (Header r) "X-Forwarded-For" in
  if negb (String.eqb xff EmptyString) then xff
  else
    let xri := Header_Get (Header r) "X-Real-IP" in
    if negb (String.eqb xri EmptyString) then xri
    else fst (fst (SplitHostPort (RemoteAddr r))).

(** The admission part of [HandleWebSocket]: the key is computed once and
    used for the connection check and the connection count. [upgraded] is
    the outcome of the websocket upgrade. *)
Inductive admission :=
| TooManyRequests
| UpgradeFailed
| Accepted (key : string).

Definition admit_request (r : Request) (upgraded : bool)
    (rl : RateLimit.RateLimiter) : admission * RateLimit.RateLimiter :=
  let clientIP := GetClientIP r in
  let '(ok, rl1) := RateLimit.CanConnect clientIP rl in
  if negb ok then (TooManyRequests, rl1)
  else if negb upgraded then (UpgradeFailed, rl1)
  else (Accepted clientIP, RateLimit.AddConnection clientIP rl1).

End WithNet.

(** A small instance, enough for a peer address of the form host:port: the
    two header names in canonical form, and the split at the last colon. *)
Fixpoint split_last_colon (s : string) : option (string * string) :=
  match s with
  | EmptyString => None
  | String c rest =>
      match split_last_colon rest with
      | Some (h, p) => Some (String c h, p)
      | None => if Ascii.eqb c (Ascii.ascii_of_nat 58) then Some (EmptyString, rest) else None
      end
  end.

Definition plain_net : NetLib :=
  {| CanonicalMIMEHeaderKey :=
       fun k => if String.eqb k "X-Real-IP" then "X-Real-Ip"%string else k;
     SplitHostPort :=
       fun a => match split_last_colon a with
                | Some (h, p) => (h, p, false)
                | None => (EmptyString, EmptyString, true)
                end |}.

End ClientIP.

(** ** Channels, panics and the hub *)

(** A goroutine either goes on with a value or panics. *)
Inductive outcome (A : Type) :=
| Ok (a : A)
| Panic (why : string).
Arguments Ok {A} a.
Arguments Panic {A} why.

Definition obind {A B} (o : outcome A) (k : A -> outcome B) : outcome B :=
  match o with
  | Ok a => k a
  | Panic w => Panic w
  end.

Module Hub.

Definition bytes := list Byte.byte.

(** A client is identified by its pointer. *)
Definition ClientId := nat.

(** A buffered channel of byte slices: its queue (oldest first) and whether
    it has been closed. Every [send] channel is made with capacity 256. *)
Record Chan := mkChan {
  buf : list bytes;
  closed : bool
}.

Definition capacity : nat := 256.

Definition make_chan : Chan := {| buf := []; closed := false |}.

(** The channel after a send, and after a close. *)
Definition pushed (message : bytes) (ch : Chan) : Chan :=
  {| buf := buf ch ++ [message]; closed := false |}.

Definition shut (ch : Chan) : Chan := {| buf := buf ch; closed := true |}.

(** [close(ch)]: closing a closed or a nil channel panics. *)
Definition close_chan (ch : option Chan) : outcome Chan :=
  match ch with
  | None => Panic "close of nil channel"
  | Some c =>
      if closed c then Panic "close of closed channel"
      else Ok {| buf := buf c; closed := true |}
  end.

(** The hub: the registry [clients] (a Go map from client pointers to
    [true]) and, next to it, the [send] channel of every client there is. *)
Record Hub := mkHub {
  clients : gmap ClientId bool;
  chans : gmap ClientId Chan
}.

Definition newHub : Hub := {| clients := ∅; chans := ∅ |}.

Definition register (c : ClientId) (h : Hub) : outcome Hub :=
  Ok {| clients := <[c := true]> (clients h); chans := chans h |}.

Definition unregister (c : ClientId) (h : Hub) : outcome Hub :=
  match clients h !! c with
  | Some _ =>
      obind (close_chan (chans h !! c)) (fun ch =>
        Ok {| clients := delete c (clients h);
              chans := <[c := ch]> (chans h) |})
  | None => Ok h
  end.

(** One iteration of the broadcast loop, for client [c]:
    [select { case client.send <- message: default: close; delete }].
    A send on a closed channel panics; a nil channel is never ready. An
    entry deleted before it is reached is not visited. *)
Definition broadcast_one (message : bytes) (h : Hub) (c : ClientId)
  : outcome Hub :=
  match clients h !! c with
  | None => Ok h
  | Some _ =>
      match chans h !! c with
      | Some ch =>
          if closed ch then Panic "send on closed channel"
          else if Nat.ltb (length (buf ch)) capacity then
            Ok {| clients := clients h;
                  chans := <[c := {| buf := buf ch ++ [message];
                                     closed := false |}]> (chans h) |}
          else
            obind (close_chan (Some ch)) (fun ch' =>
              Ok {| clients := delete c (clients h);
                    chans := <[c := ch']> (chans h) |})
      | None =>
          obind (close_chan None) (fun ch' =>
            Ok {| clients := delete c (clients h);
                  chans := <[c := ch']> (chans h) |})
      end
  end.

(** The loop [for client := range h.clients] visits the keys in an order
    that Go does not fix: [order] is that order. *)
Fixpoint broadcast_over (order : list ClientId) (message : bytes) (h : Hub)
  : outcome Hub :=
  match order with
  | [] => Ok h
  | c :: rest =>
      obind (broadcast_one message h c) (broadcast_over rest message)
  end.

(** [order] is an iteration order of the registry. *)
Definition iteration_order (order : list ClientId) (h : Hub) : Prop :=
  NoDup order /\ forall c, c ∈ order <-> is_Some (clients h !! c).

(** The messages [Hub.run] selects on. The broadcast carries the order in
    which that pass ranges over the map. *)
Inductive op :=
| Register (c : ClientId)
| Unregister (c : ClientId)
| Broadcast (message : bytes) (order : list ClientId).

Definition run_op (o : op) (h : Hub) : outcome Hub :=
  match o with
  | Register c => register c h
  | Unregister c => unregister c h
  | Broadcast m order => broadcast_over order m h
  end.

Fixpoint run (ops : list op) (h : Hub) : outcome Hub :=
  match ops with
  | [] => Ok h
  | o :: rest => obind (run_op o h) (run rest)
  end.

(** The registry as a list of clients. *)
Definition registry (h : Hub) : list ClientId := (map_to_list (clients h)).*1.

Definition registered (c : ClientId) (h : Hub) : Prop :=
  is_Some (clients h !! c).

(** Every registered client has an open channel. *)
Definition open_registry (h : Hub) : Prop :=
  forall c, registered c h ->
    exists ch, chans h !! c = Some ch /\ closed ch = false.

(** The callers' side of the protocol: a client is registered with the
    channel it was made with still open, and a broadcast ranges over the
    registry. *)
Definition op_allowed (o : op) (h : Hub) : Prop :=
  match o with
  | Register c => exists ch, chans h !! c = Some ch /\ closed ch = false
  | Unregister _ => True
  | Broadcast _ order => iteration_order order h
  end.

Fixpoint protocol (ops : list op) (h : Hub) : Prop :=
  match ops with
  | [] => True
  | o :: rest =>
      op_allowed o h /\
      forall h', run_op o h = Ok h' -> protocol rest h'
  end.

(** Two registered clients: client 1 with an empty queue and client 2 with
    a full one. *)
Definition two_clients : Hub :=
  {| clients := <[1%nat := true]> (<[2%nat := true]> ∅);
     chans := <[1%nat := make_chan]>
                (<[2%nat := {| buf := repeat [] capacity; closed := false |}]> ∅) |}.


(** One client that has its channel and is not registered. *)
Definition one_idle_client : Hub :=
  {| clients := ∅; chans := {[ 1%nat := make_chan ]} |}.

End Hub.

(** ** The dispatch switch of the reader loop *)

Module Conn.

Definition bytes := Hub.bytes.

Record Conversation := mkConversation {
  conv_ID : Z;
  conv_Name : option string;
  conv_IsGroup : bool;
  conv_CreatedAt : Z;
  conv_Participants : list string;
  conv_UnreadCount : Z
}.

Record Message := mkMessage {
  msg_ID : Z;
  msg_ConversationID : Z;
  msg_SenderID : Z;
  msg_SenderUsername : string;
  msg_Content : string;
  msg_CreatedAt : Z
}.

Record WSMessage := mkWSMessage {
  Type_ : string;
  Payload : bytes
}.

Record AuthPayload := mkAuthPayload {
  auth_Username : string;
  auth_Password : string;
  auth_Action : string
}.

Record SendMessagePayload := mkSendMessagePayload {
  send_ConversationID : Z;
  send_Content : string
}.

Record CreateConversationPayload := mkCreateConversationPayload {
  create_Name : string;
  create_IsGroup : bool;
  create_Usernames : list string
}.

(** The JSON objects the server marshals. *)
Inductive Response :=
| auth_error (error : string)
| auth_success (user_id : Z) (username : string) (conversations : list Conversation)
| typing (conversation_id user_id : Z) (username : string)
| user_check_result (username : string) (exists_ : bool)
| error_ (error : string)
| conversation_created (conversation : Conversation)
| messages (conversation_id : Z) (msgs : list Message)
| new_message (message : Message)
| conversations_ (conversations : list Conversation).

(** [encoding/json]: marshalling of the responses, and unmarshalling of the
    payloads (the handler ignores the error: a payload that does not parse
    leaves the zero value). *)
Class Json := {
  Marshal : Response -> bytes;
  Unmarshal_Auth : bytes -> AuthPayload;
  Unmarshal_ConversationID : bytes -> Z;
  Unmarshal_CheckUser : bytes -> string;
  Unmarshal_Create : bytes -> CreateConversationPayload;
  Unmarshal_Send : bytes -> SendMessagePayload;
  Unmarshal_AddParticipant : bytes -> Z * string;
  Unmarshal_Rename : bytes -> Z * string
}.

(** The database functions of the server, over a database state [db]. The
    functions that only run a SELECT return no new state. *)
Class Store := {
  db : Type;
  handleAuth : AuthPayload -> db -> (string + Z * string) * db;
  checkUserExists : string -> db -> bool * Z;
  createConversation :
    Z -> CreateConversationPayload -> db -> (string + Conversation) * db;
  getUserConversations : Z -> db -> list Conversation;
  addParticipant : Z -> string -> db -> option string * db;
  renameConversation : Z -> string -> db -> db;
  leaveConversation : Z -> Z -> db -> db;
  updateReadReceipt : Z -> Z -> db -> db;
  getConversationMessages : Z -> Z -> db -> list Message;
  saveMessage : Z -> Z -> string -> db -> option Message * db
}.

(** The fields of [Client] the switch reads and writes. *)
Record Client := mkClient {
  userID : Z;
  username : string
}.

(** What one iteration sends out, in order. *)
Inductive out :=
| Send (resp : bytes)          (* client.send <- resp *)
| HubRegister                  (* hub.register <- client *)
| HubBroadcast (resp : bytes). (* hub.broadcast <- resp *)

Section Dispatch.
Context `{Json} `{Store}.

(** The server state one iteration works on. *)
Record World := mkWorld {
  w_db : db;
  w_limiter : RateLimit.RateLimiter
}.

Definition result : Type := Client * World * list out.

Definition with_db (w : World) (d : db) : World :=
  {| w_db := d; w_limiter := w_limiter w |}.

Definition case_auth (clientIP : string) (now now' : Z) (m : WSMessage)
    (c : Client) (w : World) : result :=
  let '(ok, rl) := RateLimit.CanAuth now now' clientIP (w_limiter w) in
  let w1 := {| w_db := w_db w; w_limiter := rl |} in
  if negb ok then
    (c, w1,
     [Send (Marshal (auth_error "Too many login attempts. Please wait a minute."))])
  else
    let payload := Unmarshal_Auth (Payload m) in
    match handleAuth payload (w_db w1) with
    | (inl err, d) => (c, with_db w1 d, [Send (Marshal (auth_error err))])
    | (inr (uid, uname), d) =>
        let c' := {| userID := uid; username := uname |} in
        let convs := getUserConversations uid d in
        (c', with_db w1 d,
         [HubRegister; Send (Marshal (auth_success uid uname convs))])
    end.

Definition case_typing (m : WSMessage) (c : Client) (w : World) : result :=
  if Z.eqb (userID c) 0 then (c, w, [])
  else
    let conv := Unmarshal_ConversationID (Payload m) in
    (c, w, [HubBroadcast (Marshal (typing conv (userID c) (username c)))]).

Definition case_check_user (m : WSMessage) (c : Client) (w : World) : result :=
  let name := Unmarshal_CheckUser (Payload m) in
  let exists_ := fst (checkUserExists name (w_db w)) in
  (c, w, [Send (Marshal (user_check_result name exists_))]).

Definition case_create_conversation (m : WSMessage) (c : Client) (w : World)
  : result :=
  if Z.eqb (userID c) 0 then (c, w, [])
  else
    let payload := Unmarshal_Create (Payload m) in
    match createConversation (userID c) payload (w_db w) with
    | (inl err, d) => (c, with_db w d, [Send (Marshal (error_ err))])
    | (inr conv, d) =>
        (c, with_db w d, [Send (Marshal (conversation_created conv))])
    end.

Definition case_get_messages (m : WSMessage) (c : Client) (w : World)
  : result :=
  if Z.eqb (userID c) 0 then (c, w, [])
  else
    let conv := Unmarshal_ConversationID (Payload m) in
    let d := updateReadReceipt (userID c) conv (w_db w) in
    let msgs := getConversationMessages conv 100 d in
    (c, with_db w d, [Send (Marshal (messages conv msgs))]).

Definition case_read_receipt (m : WSMessage) (c : Client) (w : World)
  : result :=
  if Z.eqb (userID c) 0 then (c, w, [])
  else
    let conv := Unmarshal_ConversationID (Payload m) in
    (c, with_db w (updateReadReceipt (userID c) conv (w_db w)), []).

Definition case_send_message (m : WSMessage) (c : Client) (w : World)
  : result :=
  if Z.eqb (userID c) 0 then (c, w, [])
  else
    let payload := Unmarshal_Send (Payload m) in
    match saveMessage (send_ConversationID payload) (userID c)
            (send_Content payload) (w_db w) with
    | (None, d) => (c, with_db w d, [])
    | (Some msg, d) =>
        (c, with_db w d, [HubBroadcast (Marshal (new_message msg))])
    end.

Definition case_get_conversations (m : WSMessage) (c : Client) (w : World)
  : result :=
  if Z.eqb (userID c) 0 then (c, w, [])
  else
    let convs := getUserConversations (userID c) (w_db w) in
    (c, w, [Send (Marshal (conversations_ convs))]).

Definition case_add_participant (m : WSMessage) (c : Client) (w : World)
  : result :=
  if Z.eqb (userID c) 0 then (c, w, [])
  else
    let payload := Unmarshal_AddParticipant (Payload m) in
    match addParticipant (fst payload) (snd payload) (w_db w) with
    | (Some err, d) => (c, with_db w d, [Send (Marshal (error_ err))])
    | (None, d) =>
        let convs := getUserConversations (userID c) d in
        (c, with_db w d, [Send (Marshal (conversations_ convs))])
    end.

Definition case_rename_conversation (m : WSMessage) (c : Client) (w : World)
  : result :=
  if Z.eqb (userID c) 0 then (c, w, [])
  else
    let payload := Unmarshal_Rename (Payload m) in
    let d := renameConversation (fst payload) (snd payload) (w_db w) in
    let convs := getUserConversations (userID c) d in
    (c, with_db w d, [Send (Marshal (conversations_ convs))]).

Definition case_leave_conversation (m : WSMessage) (c : Client) (w : World)
  : result :=
  if Z.eqb (userID c) 0 then (c, w, [])
  else
    let conv := Unmarshal_ConversationID (Payload m) in
    let d := leaveConversation (userID c) conv (w_db w) in
    let convs := getUserConversations (userID c) d in
    (c, with_db w d, [Send (Marshal (conversations_ convs))]).

(** [switch wsMsg.Type]: a type that matches no case does nothing. *)
Definition dispatch (clientIP : string) (now now' : Z) (m : WSMessage)
    (c : Client) (w : World) : result :=
  let ty := Type_ m in
  if String.eqb ty "auth" then case_auth clientIP now now' m c w
  else if String.eqb ty "typing" then case_typing m c w
  else if String.eqb ty "check_user" then case_check_user m c w
  else if String.eqb ty "create_conversation" then case_create_conversation m c w
  else if String.eqb ty "get_messages" then case_get_messages m c w
  else if String.eqb ty "read_receipt" then case_read_receipt m c w
  else if String.eqb ty "send_message" then case_send_message m c w
  else if String.eqb ty "get_conversations" then case_get_conversations m c w
  else if String.eqb ty "add_participant" then case_add_participant m c w
  else if String.eqb ty "rename_conversation" then case_rename_conversation m c w
  else if String.eqb ty "leave_conversation" then case_leave_conversation m c w
  else (c, w, []).

(** A message was silently ignored: nothing changed and nothing was sent. *)
Definition ignored (c : Client) (w : World) (r : result) : Prop :=
  r = (c, w, []).

End Dispatch.

(** The client [handleWebSocket] makes: no user id yet. *)
Definition new_client : Client := {| userID := 0; username := EmptyString |}.

End Conn.

(** ** The handler of one connection, from the request to the switch *)

Module Handler.

Import ClientIP Conn.

Section WithLibs.
Context `{NetLib} `{Json} `{Store}.

(** The reader loop over the messages that arrive and parse, each with the
    two readings of the clock that [canAuth] makes when it is called: every
    message goes through the switch with [clientIP], the local variable of
    the handler (in the ws package, the field [IP] the handler gives the
    client). *)
Fixpoint reader_loop (clientIP : string) (ms : list (Z * Z * WSMessage))
    (c : Client) (w : World) : result :=
  match ms with
  | [] => (c, w, [])
  | (now, now', m) :: rest =>
      let '(c1, w1, outs1) := dispatch clientIP now now' m c w in
      let '(c2, w2, outs2) := reader_loop clientIP rest c1 w1 in
      (c2, w2, outs1 ++ outs2)
  end.

Definition set_limiter (w : World) (rl : RateLimit.RateLimiter) : World :=
  {| w_db := w_db w; w_limiter := rl |}.

(** [handleWebSocket]: [clientIP] is computed once, from the request, and is
    the key of the admission check, of the connection count and, through
    the reader loop, of every authentication attempt of the connection. *)
Definition handleWebSocket (r : Request) (upgraded : bool)
    (ms : list (Z * Z * WSMessage)) (w : World) : admission * result :=
  let clientIP := GetClientIP r in
  let '(ok, rl1) := RateLimit.CanConnect clientIP (w_limiter w) in
  if negb ok then (TooManyRequests, (new_client, set_limiter w rl1, []))
  else if negb upgraded then (UpgradeFailed, (new_client, set_limiter w rl1, []))
  else
    (Accepted clientIP,
     reader_loop clientIP ms new_client
       (set_limiter w (RateLimit.AddConnection clientIP rl1))).

End WithLibs.

(** The limiter after the auth messages of [ms] have been checked, one
    after the other, under [key]. *)
Fixpoint limited (key : string) (ms : list (Z * Z * WSMessage))
    (rl : RateLimit.RateLimiter) : RateLimit.RateLimiter :=
  match ms with
  | [] => rl
  | (now, now', m) :: rest =>
      limited key rest
        (if String.eqb (Type_ m) "auth"
         then snd (RateLimit.CanAuth now now' key rl) else rl)
  end.

End Handler.

(** ** The two loops of one connection *)

(** The reader loop and the writer goroutine of [handleWebSocket] in
    cmd/server/main.go, next to the hub. The reader loop runs in the
    goroutine of the HTTP handler; the hub runs in a goroutine of its own,
    started by [main]. *)
Module Pump.

Import Hub.

Inductive loop := Running | Exited.

(** One connection [me], next to the hub it talks to. [parked] is the reply
    the reader loop is blocked on in [client.send <- resp], the queue being
    full, if there is one. [conn_closes] counts the calls of [conn.Close()]
    and [released] the calls of [removeConnection] made for this
    connection. *)
Record state := mkState {
  hub : Hub.Hub;
  userID : Z;
  reader : loop;
  parked : option bytes;
  writer : loop;
  conn_closes : nat;
  released : nat
}.

(** [handleWebSocket] after the upgrade: a fresh client with its channel,
    the writer goroutine started and the reader loop entered. *)
Definition start (me : ClientId) (h : Hub.Hub) : state :=
  {| hub := {| clients := delete me (clients h);
               chans := <[me := make_chan]> (chans h) |};
     userID := 0;
     reader := Running;
     parked := None;
     writer := Running;
     conn_closes := 0;
     released := 0 |}.

Inductive event :=
| ReadError                       (* conn.ReadMessage returns an error *)
| AuthSuccess (uid : Z)           (* client.userID = userID; hub.register <- client *)
| ReaderSend (resp : bytes)       (* client.send <- resp, in the reader loop *)
| ReaderSendEnds                  (* a blocked client.send <- resp comes to its end *)
| ReaderBroadcast (resp : bytes) (order : list ClientId)
                                  (* hub.broadcast <- resp, in the reader loop *)
| WriteOk                         (* the writer takes a message, WriteMessage succeeds *)
| WriteError                      (* the writer takes a message, WriteMessage fails *)
| WriterRangeEnds                 (* range client.send ends: closed and drained *)
| HubServes (o : op).             (* the hub serves another connection *)

Definition set_hub (s : state) (h : Hub.Hub) : state :=
  {| hub := h; userID := userID s; reader := reader s; parked := parked s;
     writer := writer s; conn_closes := conn_closes s; released := released s |}.

Definition set_parked (p : option bytes) (s : state) : state :=
  {| hub := hub s; userID := userID s; reader := reader s; parked := p;
     writer := writer s; conn_closes := conn_closes s; released := released s |}.

(** The deferred function of the writer goroutine. *)
Definition writer_returns (s : state) : state :=
  {| hub := hub s; userID := userID s; reader := reader s; parked := parked s;
     writer := Exited;
     conn_closes := S (conn_closes s); released := S (released s) |}.

Definition reader_returns (s : state) : state :=
  {| hub := hub s; userID := userID s; reader := Exited; parked := parked s;
     writer := writer s; conn_closes := conn_closes s; released := released s |}.

(** A panic in the reader loop. The loop is the handler of the HTTP request:
    net/http recovers the panic of a handler, logs it and goes on serving,
    and it does not close a connection that was hijacked, as the upgrade
    does. The loop is gone and nothing is sent to [hub.unregister]; the
    writer goroutine and the hub go on. *)
Definition reader_panics (s : state) : state :=
  reader_returns (set_parked None s).

Definition my_chan (me : ClientId) (s : state) : option Chan :=
  chans (hub s) !! me.

Definition set_chan (me : ClientId) (ch : Chan) (s : state) : state :=
  set_hub s {| clients := clients (hub s); chans := <[me := ch]> (chans (hub s)) |}.

(** An operation of the hub that comes from another connection. *)
Definition foreign (me : ClientId) (o : op) : bool :=
  match o with
  | Register c => negb (Nat.eqb c me)
  | Unregister c => negb (Nat.eqb c me)
  | Broadcast _ _ => true
  end.

(** The reader loop is at a point where it can go on: it has not returned
    and it is not blocked in a send. *)
Definition reader_free (s : state) : bool :=
  match reader s, parked s with
  | Running, None => true
  | _, _ => false
  end.

(** [client.send <- resp] in the reader loop: on a closed channel it panics;
    with room in the queue it goes through; on a full queue it blocks, until
    the writer makes room or the hub closes the channel. [waiting] tells
    whether the loop was blocked in this send already. *)
Definition reader_sends (me : ClientId) (resp : bytes) (waiting : bool)
    (s : state) : option (outcome state) :=
  match my_chan me s with
  | None => None
  | Some ch =>
      if closed ch then Some (Ok (reader_panics s))
      else if Nat.ltb (length (buf ch)) capacity then
        Some (Ok (set_parked None
                    (set_chan me {| buf := buf ch ++ [resp]; closed := false |} s)))
      else if waiting then None
      else Some (Ok (set_parked (Some resp) s))
  end.

(** One step of the connection. [None]: the event cannot happen in this
    state (the goroutine has returned, or it is blocked). [Some (Panic _)]:
    the hub goroutine panics, which ends the server. *)
Definition step (me : ClientId) (e : event) (s : state)
  : option (outcome state) :=
  match e with
  | ReadError =>
      if reader_free s then
        if negb (Z.eqb (userID s) 0) then
          Some (obind (unregister me (hub s)) (fun h =>
                  Ok (reader_returns (set_hub s h))))
        else Some (Ok (reader_returns s))
      else None
  | AuthSuccess uid =>
      if reader_free s then
        Some (obind (register me (hub s)) (fun h =>
                Ok {| hub := h; userID := uid; reader := reader s;
                      parked := parked s; writer := writer s;
                      conn_closes := conn_closes s; released := released s |}))
      else None
  | ReaderSend resp =>
      if reader_free s then reader_sends me resp false s else None
  | ReaderSendEnds =>
      match reader s, parked s with
      | Running, Some resp => reader_sends me resp true s
      | _, _ => None
      end
  | ReaderBroadcast resp order =>
      if reader_free s then
        Some (obind (broadcast_over order resp (hub s)) (fun h =>
                Ok (set_hub s h)))
      else None
  | WriteOk =>
      match writer s, my_chan me s with
      | Running, Some ch =>
          match buf ch with
          | _ :: rest =>
              Some (Ok (set_chan me {| buf := rest; closed := closed ch |} s))
          | [] => None
          end
      | _, _ => None
      end
  | WriteError =>
      match writer s, my_chan me s with
      | Running, Some ch =>
          match buf ch with
          | _ :: rest =>
              Some (Ok (writer_returns
                          (set_chan me {| buf := rest; closed := closed ch |} s)))
          | [] => None
          end
      | _, _ => None
      end
  | WriterRangeEnds =>
      match writer s, my_chan me s with
      | Running, Some ch =>
          match buf ch with
          | [] => if closed ch then Some (Ok (writer_returns s)) else None
          | _ :: _ => None
          end
      | _, _ => None
      end
  | HubServes o =>
      if foreign me o then
        Some (obind (run_op o (hub s)) (fun h => Ok (set_hub s h)))
      else None
  end.

Fixpoint exec (me : ClientId) (evs : list event) (s : state)
  : option (outcome state) :=
  match evs with
  | [] => Some (Ok s)
  | e :: rest =>
      match step me e s with
      | Some (Ok s') => exec me rest s'
      | other => other
      end
  end.

(** The user ids the store hands out are not 0 (the ids of the users table
    are a SERIAL). *)
Definition ids_nonzero (evs : list event) : Prop :=
  forall uid, AuthSuccess uid ∈ evs -> uid <> 0.

(** A registered connection has a user id. *)
Definition registered_ok (me : ClientId) (s : state) : Prop :=
  registered me (hub s) -> userID s <> 0.

(** The writer goroutine closes the transport and releases the connection
    count when it returns, and only then. *)
Definition closed_by_writer (s : state) : Prop :=
  match writer s with
  | Running => conn_closes s = 0%nat /\ released s = 0%nat
  | Exited => conn_closes s = 1%nat /\ released s = 1%nat
  end.

(** The reader loop has returned, the client is in no registry, its channel
    is open and empty, and the writer goroutine is waiting on it. *)
Definition orphaned (me : ClientId) (s : state) : Prop :=
  reader s = Exited /\ writer s = Running /\
  ~ registered me (hub s) /\ my_chan me s = Some make_chan /\
  conn_closes s = 0%nat /\ released s = 0%nat.

(** The client is registered, its channel is closed and its reader loop is
    gone. *)
Definition stranded (me : ClientId) (s : state) : Prop :=
  reader s = Exited /\ registered me (hub s) /\
  exists q, my_chan me s = Some {| buf := q; closed := true |}.

(** The messages the writer takes off the queue in a run. *)
Definition takes (e : event) : nat :=
  match e with
  | WriteOk | WriteError => 1
  | _ => 0
  end.


(** A run of one connection that ends with its queue full and the client
    dropped: the peer logs in, asks 256 times for something the server
    answers (the replies wait in the queue, the writer has not taken any),
    and a broadcast of another connection then finds the queue full. *)
Definition login_reply : bytes := [Byte.x6f; Byte.x6b].
Definition a_reply : bytes := [Byte.x72].
Definition a_broadcast : bytes := [Byte.x6d].

Definition overflow : list event :=
  AuthSuccess 7 :: ReaderSend login_reply
    :: repeat (ReaderSend a_reply) 255
    ++ [HubServes (Broadcast a_broadcast [1%nat])].

(** The peer then logs in a second time, on the same connection: the switch
    registers the client again and sends the reply. *)
Definition second_login : list event :=
  [AuthSuccess 7; ReaderSend login_reply].

End Pump.

(** ** The client's reconnect loop *)

Module Reconnect.

Record Session := mkSession {
  ses_Username : string;
  ses_Password : string
}.

(** The fields of the client's [model] that the three cases use. A
    connection is identified by the number of the dial that made it. *)
Record model := mkModel {
  conn : option nat;
  serverURL : string;
  connected : bool;
  isReconnecting : bool;
  isLoading : bool;
  savedSession : option Session;
  pendingPassword : string;
  usernameInput : string;
  passwordInput : string;
  authAction : string;
  err : option string;
  reconnectCount : Z
}.

Inductive msg :=
| wsConnected (c : nat)
| wsError (e : string)
| wsReconnect.

#[warnings="-register-all"]
Inductive cmd :=
| none
| Tick (delay : Z) (then_ : msg)
| connectToServer (url : string)
| listenForMessages (c : nat)
| sendWSMessage (msgType : string) (payload : list (string * string))
| Batch (cs : list cmd).

(** [time.Second], in nanoseconds. *)
Definition second : Z := 1000000000.

(** The three cases of [model.Update] that deal with the connection:
    [wsConnected], [wsError] and [wsReconnect]. No other case writes
    [reconnectCount], [isReconnecting] or [connected]. The other cases are
    not embedded: the keys, the window size and [wsIncoming], whose typing
    case schedules a tick of 3 seconds of its own, to clear the typing
    indicator. *)
Definition Update (m : model) (ms : msg) : model * cmd :=
  match ms with
  | wsConnected c =>
      let m1 :=
        {| conn := Some c; serverURL := serverURL m; connected := true;
           isReconnecting := false; isLoading := isLoading m;
           savedSession := savedSession m; pendingPassword := pendingPassword m;
           usernameInput := usernameInput m; passwordInput := passwordInput m;
           authAction := authAction m; err := err m; reconnectCount := 0 |} in
      if isLoading m1 then
        (m1, Batch [listenForMessages c;
                    sendWSMessage "auth"
                      [("username", usernameInput m1);
                       ("password", passwordInput m1);
                       ("action", authAction m1)]])
      else
        match savedSession m1 with
        | Some ses =>
            ({| conn := conn m1; serverURL := serverURL m1;
                connected := connected m1; isReconnecting := isReconnecting m1;
                isLoading := isLoading m1; savedSession := savedSession m1;
                pendingPassword := ses_Password ses;
                usernameInput := usernameInput m1;
                passwordInput := passwordInput m1;
                authAction := authAction m1; err := err m1;
                reconnectCount := reconnectCount m1 |},
             Batch [listenForMessages c;
                    sendWSMessage "auth"
                      [("username", ses_Username ses);
                       ("password", ses_Password ses);
                       ("action", "login")]])
        | None => (m1, listenForMessages c)
        end
  | wsError e =>
      if Z.ltb (reconnectCount m) 5 then
        let n := wrap64 (reconnectCount m + 1) in
        ({| conn := None; serverURL := serverURL m; connected := false;
            isReconnecting := true; isLoading := isLoading m;
            savedSession := savedSession m; pendingPassword := pendingPassword m;
            usernameInput := usernameInput m; passwordInput := passwordInput m;
            authAction := authAction m; err := err m; reconnectCount := n |},
         Tick (wrap64 (second * n)) wsReconnect)
      else
        ({| conn := None; serverURL := serverURL m; connected := false;
            isReconnecting := false; isLoading := isLoading m;
            savedSession := savedSession m; pendingPassword := pendingPassword m;
            usernameInput := usernameInput m; passwordInput := passwordInput m;
            authAction := authAction m; err := Some e;
            reconnectCount := reconnectCount m |},
         none)
  | wsReconnect =>
      ({| conn := conn m; serverURL := serverURL m; connected := connected m;
          isReconnecting := true; isLoading := isLoading m;
          savedSession := savedSession m; pendingPassword := pendingPassword m;
          usernameInput := usernameInput m; passwordInput := passwordInput m;
          authAction := authAction m; err := err m;
          reconnectCount := reconnectCount m |},
       connectToServer (serverURL m))
  end.

(** The connector: the outcome of the dial number [n] (from 0), [None] for
    a connection and [Some e] for the error. *)
Definition connector := nat -> option string.

(** What the runtime has done so far: the delays it has waited and the
    number of dials it has made. *)
Record trace := mkTrace {
  delays : list Z;
  dials : nat
}.

Inductive phase :=
| Connected_     (* a connection is up and the read loop is listening *)
| Stopped        (* no command is left: nothing will happen any more *)
| OutOfFuel.

(** The runtime of the commands: a tick waits and delivers its message, a
    dial delivers wsConnected or wsError, listening ends the reconnection. *)
Fixpoint drive (fuel : nat) (dial : connector) (c : cmd) (m : model)
    (t : trace) : phase * model * trace :=
  match fuel with
  | O => (OutOfFuel, m, t)
  | S fuel' =>
      match c with
      | none => (Stopped, m, t)
      | Tick d ms =>
          let '(m', c') := Update m ms in
          drive fuel' dial c' m' {| delays := delays t ++ [d]; dials := dials t |}
      | connectToServer _ =>
          let t' := {| delays := delays t; dials := S (dials t) |} in
          let ms := match dial (dials t) with
                    | None => wsConnected (dials t)
                    | Some e => wsError e
                    end in
          let '(m', c') := Update m ms in
          drive fuel' dial c' m' t'
      | listenForMessages _ => (Connected_, m, t)
      | sendWSMessage _ _ => (Stopped, m, t)
      | Batch (listenForMessages _ :: _) => (Connected_, m, t)
      | Batch _ => (Stopped, m, t)
      end
  end.

Definition no_trace : trace := {| delays := []; dials := 0 |}.

(** The two ways into the loop: the first dial of the login form, and the
    loss of an established connection (the read loop delivers wsError). *)
Inductive entry := FirstDial | ConnectionLost.

Definition enter (fuel : nat) (dial : connector) (en : entry) (m : model)
  : phase * model * trace :=
  match en with
  | FirstDial => drive fuel dial (connectToServer (serverURL m)) m no_trace
  | ConnectionLost =>
      let '(m', c') := Update m (wsError "read error") in
      drive fuel dial c' m' no_trace
  end.

(** The connector that fails [k] times and then connects, and the one that
    always fails. *)
Definition fails_then_connects (k : nat) : connector :=
  fun n => if Nat.ltb n k then Some "dial error"%string else None.

Definition always_fails : connector := fun _ => Some "dial error"%string.

(** The model when the login form has been submitted. *)
Definition submitted (url user pass : string) : model :=
  {| conn := None; serverURL := url; connected := false;
     isReconnecting := false; isLoading := true; savedSession := None;
     pendingPassword := pass; usernameInput := user; passwordInput := pass;
     authAction := "login"; err := None; reconnectCount := 0 |}.

(** The model once that connection is up and the user is logged in. *)
Definition online (url user pass : string) : model :=
  {| conn := Some 0%nat; serverURL := url; connected := true;
     isReconnecting := false; isLoading := false;
     savedSession := Some {| ses_Username := user; ses_Password := pass |};
     pendingPassword := pass; usernameInput := user; passwordInput := pass;
     authAction := "login"; err := None; reconnectCount := 0 |}.

(** The two ends of the loop. *)
Definition reconnected (m' : model) : Prop :=
  reconnectCount m' = 0 /\ connected m' = true.

Definition gave_up (m' : model) : Prop :=
  err m' = Some "dial error"%string /\ connected m' = false /\
  isReconnecting m' = false.

Definition seconds (l : list Z) : list Z := List.map (fun n => n * second) l.

(** The delays 1s, 2s, ..., [k]s. *)
Definition first_seconds (k : nat) : list Z :=
  seconds (List.map Z.of_nat (seq 1 k)).

(** The delays waited between two dials: when the loop is entered by the
    loss of a connection, the first delay comes before the first dial. *)
Definition between_dials (en : entry) (ds : list Z) : list Z :=
  match en with
  | FirstDial => ds
  | ConnectionLost => tail ds
  end.

(** The reading of the specification: four failures and then a connection
    give the delays of 1s, 2s, 3s and 4s (all the delays, or those between
    two dials) and a counter back at 0; failures only give a stop after
    exactly 5 dials. *)
Definition as_specified (en : entry) (m : model) : Prop :=
  (exists fuel m' t,
      enter fuel (fails_then_connects 4) en m = (Connected_, m', t)
      /\ reconnectCount m' = 0
      /\ (delays t = [1 * second; 2 * second; 3 * second; 4 * second]
          \/ between_dials en (delays t)
             = [1 * second; 2 * second; 3 * second; 4 * second])) /\
  (exists fuel m' t,
      enter fuel always_fails en m = (Stopped, m', t) /\ dials t = 5%nat).

End Reconnect.

(** ** The client's session file *)

Module Session.

Definition bytes := list Byte.byte.

(** A Go call returns a value, returns an error, or panics. *)
Inductive result (A : Type) :=
| Value (a : A)
| Error (e : string)
| Crash (why : string).
Arguments Value {A} a.
Arguments Error {A} e.
Arguments Crash {A} why.

Definition bind {A B} (r : result A) (k : A -> result B) : result B :=
  match r with
  | Value a => k a
  | Error e => Error e
  | Crash w => Crash w
  end.

Record Session := mkSession {
  ServerURL : string;
  Username : string;
  Password : string
}.

(** The packages the session code calls: sha256, AES-GCM under a key (the
    sealed text carries the tag), base64, JSON for [Session], and the path
    and string helpers. *)
Class GoLib := {
  sha256_Sum256 : bytes -> bytes;
  gcm_seal : bytes -> bytes -> bytes -> bytes;          (* key, nonce, plaintext *)
  gcm_open : bytes -> bytes -> bytes -> option bytes;   (* key, nonce, sealed *)
  base64_EncodeToString : bytes -> bytes;
  base64_DecodeString : bytes -> option bytes;
  json_Marshal : Session -> bytes;
  json_Unmarshal : bytes -> option Session;
  filepath_Join : list string -> string;
  strings_TrimSpace : bytes -> bytes
}.

(** What the session code relies on: a digest of 32 bytes, opening what was
    sealed under the same key (of 32 bytes) and nonce (of 12 bytes), and
    decoding what was encoded. *)
Class GoLibLaws `{GoLib} : Prop := {
  sha256_length : forall b, length (sha256_Sum256 b) = 32%nat;
  gcm_open_seal : forall key nonce data,
    length key = 32%nat -> length nonce = 12%nat ->
    gcm_open key nonce (gcm_seal key nonce data) = Some data;
  base64_decode_encode : forall b,
    base64_DecodeString (base64_EncodeToString b) = Some b
}.


(** The machine the client runs on: its files and directories, and what the
    calls into it do. [entropy] is what [io.ReadFull] gets from
    [rand.Reader] ([None]: it fails). [mkdir_ok] is the outcome of
    [os.MkdirAll], and [mkdir_makes] the directories it leaves behind that
    were not there (the missing ones when it succeeds, those it got to when
    it fails). [write_ok] is the outcome of [os.WriteFile]; when it fails,
    [write_fault] tells how far it got: [None] when the file could not be
    opened, [Some n] when the file was opened, which truncates it, and [n]
    bytes were written. [remove_ok] is the outcome of [os.Remove]. *)
Record Env := mkEnv {
  home : option string;
  files : gmap string bytes;
  dirs : gset string;
  hostname : bytes;
  entropy : option bytes;
  mkdir_ok : bool;
  mkdir_makes : gset string;
  write_ok : bool;
  write_fault : option nat;
  remove_ok : bool
}.

(** The machine with other files and directories. *)
Definition leaves (env : Env) (f : gmap string bytes) (d : gset string) : Env :=
  {| home := home env; files := f; dirs := d;
     hostname := hostname env; entropy := entropy env;
     mkdir_ok := mkdir_ok env; mkdir_makes := mkdir_makes env;
     write_ok := write_ok env; write_fault := write_fault env;
     remove_ok := remove_ok env |}.

Section WithLib.
Context `{GoLib}.

Definition GetConfigDir (profileName : string) (env : Env) : string :=
  match home env with
  | None => EmptyString
  | Some h => filepath_Join [h; ".config"; "cldzmsg"; profileName]
  end.

Definition is_empty (b : bytes) : bool :=
  match b with [] => true | _ => false end.

(** The first of the two files that can be read gives the identifier, even
    when it is blank; a blank identifier is replaced by the host name. *)
Fixpoint first_readable (paths : list string) (env : Env) : bytes :=
  match paths with
  | [] => []
  | p :: rest =>
      match files env !! p with
      | Some data => strings_TrimSpace data
      | None => first_readable rest env
      end
  end.

Definition getEncryptionKey (env : Env) : bytes :=
  let id := first_readable ["/etc/machine-id"; "/var/lib/dbus/machine-id"] env in
  let id := if is_empty id then hostname env else id in
  sha256_Sum256 id.

(** [aes.NewCipher]: the key has 16, 24 or 32 bytes. ([cipher.NewGCM] never
    fails on an AES block.) *)
Definition aes_NewCipher (key : bytes) : result bytes :=
  let n := length key in
  if Nat.eqb n 16 || Nat.eqb n 24 || Nat.eqb n 32 then Value key
  else Error "crypto/aes: invalid key size".

Definition NonceSize : nat := 12.

(** [gcm.Seal(dst, nonce, data, nil)] appends to [dst]; [Seal] and [Open]
    panic on a nonce of the wrong length. *)
Definition gcm_Seal (key dst nonce data : bytes) : result bytes :=
  if Nat.eqb (length nonce) NonceSize then
    Value (dst ++ gcm_seal key nonce data)
  else Crash "crypto/cipher: incorrect nonce length given to GCM".

Definition gcm_Open (key nonce sealed : bytes) : result bytes :=
  if Nat.eqb (length nonce) NonceSize then
    match gcm_open key nonce sealed with
    | Some data => Value data
    | None => Error "cipher: message authentication failed"
    end
  else Crash "crypto/cipher: incorrect nonce length given to GCM".

(** [io.ReadFull(rand.Reader, nonce)] fills the whole nonce or fails. *)
Definition read_nonce (env : Env) : result bytes :=
  match entropy env with
  | Some n =>
      if Nat.eqb (length n) NonceSize then Value n
      else Error "unexpected EOF"
  | None => Error "rand: read failed"
  end.

Definition encrypt (data : bytes) (env : Env) : result bytes :=
  let key := getEncryptionKey env in
  bind (aes_NewCipher key) (fun block =>
  bind (read_nonce env) (fun nonce =>
  bind (gcm_Seal block nonce nonce data) (fun ciphertext =>
  Value (base64_EncodeToString ciphertext)))).

(** [data[:nonceSize]] and [data[nonceSize:]]: slicing past the end panics. *)
Definition slice_at (n : nat) (data : bytes) : result (bytes * bytes) :=
  if Nat.leb n (length data) then Value (firstn n data, skipn n data)
  else Crash "slice bounds out of range".

Definition decrypt (encoded : bytes) (env : Env) : result bytes :=
  match base64_DecodeString encoded with
  | None => Error "illegal base64 data"
  | Some data =>
      let key := getEncryptionKey env in
      bind (aes_NewCipher key) (fun block =>
      if Nat.ltb (length data) NonceSize then Error "ciphertext too short"
      else
        bind (slice_at NonceSize data) (fun '(nonce, ciphertext) =>
        gcm_Open block nonce ciphertext))
  end.

Definition session_path (configDir : string) : string :=
  filepath_Join [configDir; "session.json"].

(** [Save] returns its error, if any, and the machine it leaves. The
    directory is made before anything else can fail, and the file is
    truncated before it is written. *)
Definition Save (profileName serverURL username password : string) (env : Env)
  : result unit * Env :=
  let configDir := GetConfigDir profileName env in
  if String.eqb configDir EmptyString then
    (Error "could not get config directory", env)
  else
    let made := dirs env ∪ mkdir_makes env in
    if negb (mkdir_ok env) then (Error "mkdir failed", leaves env (files env) made)
    else
      let session := {| ServerURL := serverURL; Username := username;
                        Password := password |} in
      let data := json_Marshal session in
      match encrypt data env with
      | Value encrypted =>
          let path := session_path configDir in
          if write_ok env then
            (Value tt, leaves env (<[path := encrypted]> (files env)) made)
          else
            (Error "write failed",
             leaves env
               (match write_fault env with
                | None => files env
                | Some n => <[path := firstn n encrypted]> (files env)
                end) made)
      | Error e => (Error e, leaves env (files env) made)
      | Crash w => (Crash w, leaves env (files env) made)
      end.

(** [Load] returns the session or nil; the outer [result] only tells a
    normal return from a panic. *)
Definition Load (profileName : string) (env : Env)
  : result (option Session) * Env :=
  let configDir := GetConfigDir profileName env in
  if String.eqb configDir EmptyString then (Value None, env)
  else
    match files env !! session_path configDir with
    | None => (Value None, env)
    | Some data =>
        match decrypt data env with
        | Error _ =>
            match json_Unmarshal data with
            | Some session =>
                match Save profileName (ServerURL session) (Username session)
                        (Password session) env with
                | (Crash w, env') => (Crash w, env')
                | (_, env') => (Value (Some session), env')
                end
            | None => (Value None, env)
            end
        | Value decrypted =>
            match json_Unmarshal decrypted with
            | None => (Value None, env)
            | Some session => (Value (Some session), env)
            end
        | Crash w => (Crash w, env)
        end
    end.

(** [Clear]: the error of [os.Remove] is dropped, so that the file stays
    when the call fails. *)
Definition Clear (profileName : string) (env : Env) : Env :=
  let configDir := GetConfigDir profileName env in
  if negb (String.eqb configDir EmptyString) then
    if remove_ok env then
      leaves env (delete (session_path configDir) (files env)) (dirs env)
    else env
  else env.

End WithLib.

(** A small library that has the laws, to run the code on: a padded prefix
    as digest, a tag of 16 bytes made of the nonce and the key after the
    text, a marker before the encoded bytes, and a session written as three
    lines after an opening brace. *)
Fixpoint bytes_eqb (a b : bytes) : bool :=
  match a, b with
  | [], [] => true
  | x :: a', y :: b' => Byte.eqb x y && bytes_eqb a' b'
  | _, _ => false
  end.

Definition sample_tag (key nonce : bytes) : bytes :=
  firstn 16 (nonce ++ key ++ repeat Byte.x00 16).

Fixpoint split_lines (b : bytes) : list bytes :=
  match b with
  | [] => [[]]
  | x :: r =>
      if Byte.eqb x Byte.x0a then [] :: split_lines r
      else match split_lines r with
           | f :: fs => (x :: f) :: fs
           | [] => [[x]]
           end
  end.

Definition sample_lib : GoLib :=
  {| sha256_Sum256 := fun b => firstn 32 (b ++ repeat Byte.x00 32);
     gcm_seal := fun key nonce data => data ++ sample_tag key nonce;
     gcm_open := fun key nonce sealed =>
       let n := (length sealed - 16)%nat in
       if Nat.leb 16 (length sealed)
          && bytes_eqb (skipn n sealed) (sample_tag key nonce)
       then Some (firstn n sealed) else None;
     base64_EncodeToString := fun b => Byte.x3d :: b;
     base64_DecodeString := fun e =>
       match e with
       | x :: b => if Byte.eqb x Byte.x3d then Some b else None
       | [] => None
       end;
     json_Marshal := fun s =>
       Byte.x7b :: String.list_byte_of_string (ServerURL s) ++ [Byte.x0a]
         ++ String.list_byte_of_string (Username s) ++ [Byte.x0a]
         ++ String.list_byte_of_string (Password s);
     json_Unmarshal := fun b =>
       match b with
       | x :: r =>
           if Byte.eqb x Byte.x7b then
             match split_lines r with
             | [u; n; p] =>
                 Some {| ServerURL := String.string_of_list_byte u;
                         Username := String.string_of_list_byte n;
                         Password := String.string_of_list_byte p |}
             | _ => None
             end
           else None
       | [] => None
       end;
     filepath_Join := String.concat "/";
     strings_TrimSpace :=
       List.filter (fun c => negb (Byte.eqb c Byte.x0a || Byte.eqb c Byte.x20)) |}.

Definition sample_session : Session :=
  {| ServerURL := "ws://chat/ws"; Username := "alice"; Password := "secret" |}.

(** A machine whose session file is still the plaintext of an old client. *)
Definition legacy_machine : Env :=
  {| home := Some "/home/alice"%string;
     files :=
       <["/home/alice/.config/cldzmsg/default/session.json"%string
          := @json_Marshal sample_lib sample_session]>
         {[ "/etc/machine-id"%string := String.list_byte_of_string "4a1f9c" ]};
     dirs := {[ "/home/alice"%string; "/home/alice/.config"%string;
                "/home/alice/.config/cldzmsg"%string;
                "/home/alice/.config/cldzmsg/default"%string ]};
     hostname := String.list_byte_of_string "laptop";
     entropy := Some (repeat Byte.x2a 12);
     mkdir_ok := true;
     mkdir_makes := ∅;
     write_ok := true;
     write_fault := None;
     remove_ok := true |}.

(** The same machine with a disk that fails after five bytes of a write. *)
Definition failing_disk : Env :=
  {| home := home legacy_machine; files := files legacy_machine;
     dirs := dirs legacy_machine; hostname := hostname legacy_machine;
     entropy := entropy legacy_machine;
     mkdir_ok := true; mkdir_makes := ∅;
     write_ok := false; write_fault := Some 5%nat; remove_ok := false |}.

End Session.

(** ** The users table and handleAuth *)

Module Auth.

Import Conn.

(** A row of the users table, with the columns the server reads. *)
Record User := mkUser {
  ID : Z;
  Username : string;
  PasswordHash : string
}.

(** The table and the sequence behind its SERIAL id. *)
Record users := mkUsers {
  rows : list User;
  next_id : Z
}.

Definition no_users : users := {| rows := []; next_id := 1 |}.

(** The largest value of a SERIAL. *)
Definition serial_max : Z := 2147483647.

(** PostgreSQL takes no zero byte in a text: a statement with such a
    parameter is refused before it runs, so nothing is read, written or
    drawn from a sequence. The names come from [json.Unmarshal], which
    delivers valid UTF-8 and does deliver the zero byte of an escaped
    u0000. (The other text the server sends is the hash of bcrypt, which is
    made of the characters of its own alphabet.) *)
Fixpoint sendable (s : string) : bool :=
  match s with
  | EmptyString => true
  | String c rest => negb (Ascii.eqb c Ascii.zero) && sendable rest
  end.

Definition invalid_byte : string :=
  "pq: invalid byte sequence for encoding UTF8: 0x00".

(** [SELECT ... FROM users WHERE username = $1], read with [QueryRow]: the
    first row, if any; no row when the name is refused. *)
Definition by_username (name : string) (t : users) : option User :=
  if sendable name then
    List.find (fun u => String.eqb (Username u) name) (rows t)
  else None.

(** [INSERT INTO users (username, password_hash) VALUES ($1, $2) RETURNING id]:
    the id is drawn from the sequence before the constraints are checked, so
    a refused insert uses up an id, unless it is the name that is refused as
    a text. *)
Definition insert_user (name hash : string) (t : users) : (string + Z) * users :=
  if negb (sendable name) then (inl invalid_byte, t)
  else if Z.ltb serial_max (next_id t) then
    (inl "nextval: reached maximum value of sequence users_id_seq"%string, t)
  else
    let id := next_id t in
    let drawn := {| rows := rows t; next_id := id + 1 |} in
    if existsb (fun u => Z.eqb (ID u) id) (rows t) then
      (inl "duplicate key value violates unique constraint users_pkey"%string,
       drawn)
    else if existsb (fun u => String.eqb (Username u) name) (rows t) then
      (inl "duplicate key value violates unique constraint users_username_key"%string,
       drawn)
    else
      (inr id,
       {| rows := rows t ++ [{| ID := id; Username := name; PasswordHash := hash |}];
          next_id := id + 1 |}).

(** [golang.org/x/crypto/bcrypt]: hashing draws a salt; both calls return an
    error or nothing. *)
Class Bcrypt := {
  GenerateFromPassword : bytes -> string -> string + string;
  CompareHashAndPassword : string -> string -> option string
}.


Section WithBcrypt.
Context `{Bcrypt}.

Definition handleAuth (salt : bytes) (payload : AuthPayload) (t : users)
  : (string + Z * string) * users :=
  if String.eqb (auth_Action payload) "register" then
    match GenerateFromPassword salt (auth_Password payload) with
    | inl err => (inl err, t)
    | inr hash =>
        match insert_user (auth_Username payload) hash t with
        | (inl err, t') => (inl err, t')
        | (inr userID, t') => (inr (userID, auth_Username payload), t')
        end
    end
  else
    match by_username (auth_Username payload) t with
    | None =>
        (inl (if sendable (auth_Username payload)
              then "sql: no rows in result set"%string else invalid_byte), t)
    | Some u =>
        match CompareHashAndPassword (PasswordHash u) (auth_Password payload) with
        | Some err => (inl err, t)
        | None => (inr (ID u, auth_Username payload), t)
        end
    end.

Definition checkUserExists (username : string) (t : users) : bool * Z :=
  match by_username username t with
  | None => (false, 0)
  | Some u => (true, ID u)
  end.

End WithBcrypt.

(** The table as the application keeps it: ids from 1 up to the sequence,
    no id and no name twice. *)
Definition users_ok (t : users) : Prop :=
  1 <= next_id t /\
  (forall u, In u (rows t) -> 1 <= ID u < next_id t) /\
  NoDup (List.map ID (rows t)) /\
  NoDup (List.map Username (rows t)).

Definition register_as (name password : string) : AuthPayload :=
  {| auth_Username := name; auth_Password := password; auth_Action := "register" |}.

Definition login_as (name password : string) : AuthPayload :=
  {| auth_Username := name; auth_Password := password; auth_Action := "login" |}.

(** A small bcrypt that has the law, to run the code on: the salt is
    dropped and the hash is the marked password. *)
Definition sample_bcrypt : Bcrypt :=
  {| GenerateFromPassword := fun _ password =>
       if Nat.ltb 72 (String.length password)
       then inl "bcrypt: password length exceeds 72 bytes"%string
       else inr (String.append "$2a$" password);
     CompareHashAndPassword := fun hash password =>
       if String.eqb hash (String.append "$2a$" password) then None
       else Some "crypto/bcrypt: hashedPassword is not the hash of the given password"%string |}.

(** A store with users and no conversations, and a JSON that only tells the
    kind of the response, to run the switch on. *)
Definition sample_store : Store :=
  {| db := users;
     Conn.handleAuth := @handleAuth sample_bcrypt [];
     Conn.checkUserExists := @checkUserExists;
     createConversation := fun _ _ d => (inl "no conversations"%string, d);
     getUserConversations := fun _ _ => [];
     addParticipant := fun _ _ d => (Some "no conversations"%string, d);
     renameConversation := fun _ _ d => d;
     leaveConversation := fun _ _ d => d;
     updateReadReceipt := fun _ _ d => d;
     getConversationMessages := fun _ _ _ => [];
     saveMessage := fun _ _ _ d => (None, d) |}.

Definition sample_json : Json :=
  {| Marshal := fun r =>
       match r with
       | auth_error _ => [Byte.x01]
       | auth_success _ _ _ => [Byte.x02]
       | typing _ _ _ => [Byte.x03]
       | user_check_result _ _ => [Byte.x04]
       | error_ _ => [Byte.x05]
       | conversation_created _ => [Byte.x06]
       | messages _ _ => [Byte.x07]
       | new_message _ => [Byte.x08]
       | conversations_ _ => [Byte.x09]
       end;
     Unmarshal_Auth := fun b =>
       match b with
       | [] => login_as "alice" "secret"
       | _ => register_as "bob" "hunter2"
       end;
     Unmarshal_ConversationID := fun _ => 0;
     Unmarshal_CheckUser := fun _ => "alice"%string;
     Unmarshal_Create := fun _ =>
       {| create_Name := EmptyString; create_IsGroup := false;
          create_Usernames := [] |};
     Unmarshal_Send := fun _ =>
       {| send_ConversationID := 0; send_Content := EmptyString |};
     Unmarshal_AddParticipant := fun _ => (0, EmptyString);
     Unmarshal_Rename := fun _ => (0, EmptyString) |}.

(** The table after alice has registered, and a server that has it. *)
Definition alice_registered : users :=
  {| rows := [{| ID := 1; Username := "alice"; PasswordHash := "$2a$secret" |}];
     next_id := 2 |}.

Definition sample_world : @World sample_store :=
  {| w_db := alice_registered : @db sample_store;
     w_limiter := RateLimit.New None None |}.

End Auth.

(** ** The rows of getConversationMessages *)

Module Messages.

Import Conn.

(** [l[k]]: an index out of range panics. *)
Definition index {A} (l : list A) (k : Z) : option A :=
  if Z.ltb k 0 then None else l !! Z.to_nat k.

(** The loop
    [for i, j := 0, len(msgs)-1; i < j; i, j = i+1, j-1 { swap }],
    with [fuel] iterations at most ([None] when that is not enough). *)
Fixpoint reverse_loop {A} (fuel : nat) (i j : Z) (l : list A)
  : option (outcome (list A)) :=
  match fuel with
  | O => None
  | S fuel' =>
      if Z.ltb i j then
        match index l i, index l j with
        | Some a, Some b =>
            reverse_loop fuel' (i + 1) (j - 1)
              (<[Z.to_nat j := a]> (<[Z.to_nat i := b]> l))
        | _, _ => Some (Panic "index out of range")
        end
      else Some (Ok l)
  end.

Definition reverse_in_place {A} (l : list A) : option (outcome (list A)) :=
  reverse_loop (S (length l)) 0 (Z.of_nat (length l) - 1) l.

(** What [rows.Scan] fills for one row: the message without the name of its
    sender, and that name as a [sql.NullString]. [None] is a row that does
    not scan. *)
Record scanned := mkScanned {
  sc_ID : Z;
  sc_ConversationID : Z;
  sc_SenderID : Z;
  sc_senderUsername : option string;
  sc_Content : string;
  sc_CreatedAt : Z
}.

Definition message_of (r : scanned) : Message :=
  {| msg_ID := sc_ID r;
     msg_ConversationID := sc_ConversationID r;
     msg_SenderID := sc_SenderID r;
     msg_SenderUsername := default EmptyString (sc_senderUsername r);
     msg_Content := sc_Content r;
     msg_CreatedAt := sc_CreatedAt r |}.

(** The loop over [rows.Next()]: a row that does not scan is skipped. *)
Fixpoint collect (rows : list (option scanned)) (msgs : list Message)
  : list Message :=
  match rows with
  | [] => msgs
  | None :: rest => collect rest msgs
  | Some r :: rest => collect rest (msgs ++ [message_of r])
  end.

(** [getConversationMessages] on the rows the query returned (newest
    first, by its ORDER BY ... DESC). *)
Definition getConversationMessages (rows : list (option scanned))
  : option (outcome (list Message)) :=
  reverse_in_place (collect rows []).

(** Every message that comes later in the list is not newer (not older)
    than the ones before it. *)
Definition newest_first (l : list Message) : Prop :=
  forall l1 a l2 b l3, l = l1 ++ a :: l2 ++ b :: l3 ->
                       msg_CreatedAt b <= msg_CreatedAt a.

Definition oldest_first (l : list Message) : Prop :=
  forall l1 a l2 b l3, l = l1 ++ a :: l2 ++ b :: l3 ->
                       msg_CreatedAt a <= msg_CreatedAt b.

(** The rows that scan, as messages. *)
Definition scanned_messages (rows : list (option scanned)) : list Message :=
  List.map message_of (omap id rows).

End Messages.

(** * Properties *)

Lemma wrap64_small z : - 2 ^ 63 <= z < 2 ^ 63 -> wrap64 z = z.
Proof.
  intros Hz. unfold wrap64. rewrite Z.mod_small; lia.
Qed.

Module RateLimitFacts.

Import RateLimit.

(** *** Connection counts *)

Lemma conn_count_add ip rl :
  conn_count (AddConnection ip rl) ip = wrap64 (conn_count rl ip + 1).
Proof.
  unfold conn_count, AddConnection; simpl. by rewrite lookup_insert_eq.
Qed.

Lemma conn_count_add_other ip ip' rl :
  ip <> ip' -> conn_count (AddConnection ip rl) ip' = conn_count rl ip'.
Proof.
  intros Hne. unfold conn_count, AddConnection; simpl.
  by rewrite lookup_insert_ne.
Qed.

Lemma maxConns_add_iter ip rl k :
  maxConns (Nat.iter k (AddConnection ip) rl) = maxConns rl.
Proof. induction k as [|k IH]; simpl; auto. Qed.

Lemma conn_count_add_iter ip rl (k : nat) :
  0 <= conn_count rl ip ->
  conn_count rl ip + Z.of_nat k < 2 ^ 63 ->
  conn_count (Nat.iter k (AddConnection ip) rl) ip
  = conn_count rl ip + Z.of_nat k.
Proof.
  intros Hpos. induction k as [|k IH]; intros Hk.
  - simpl. lia.
  - simpl Nat.iter. rewrite conn_count_add, IH by lia.
    rewrite wrap64_small; lia.
Qed.

Lemma conn_count_remove ip rl :
  conn_count (RemoveConnection ip rl) ip
  = Z.max 0 (wrap64 (conn_count rl ip - 1)).
Proof.
  unfold RemoveConnection, conn_count at 1; simpl.
  destruct (Z.leb_spec (wrap64 (conn_count rl ip - 1)) 0).
  - rewrite lookup_delete_eq. simpl. lia.
  - rewrite lookup_insert_eq. simpl. lia.
Qed.

Lemma maxConns_remove ip rl : maxConns (RemoveConnection ip rl) = maxConns rl.
Proof. reflexivity. Qed.

(** The count is never negative, whatever the calls. *)
Lemma conn_count_remove_nonneg ip rl : 0 <= conn_count (RemoveConnection ip rl) ip.
Proof. rewrite conn_count_remove. lia. Qed.

(** C6. [CanConnect] answers whether the count of the address is strictly
    below the ceiling (10 when the environment sets none) and leaves the
    limiter as it was; from an address with no open connection, it answers
    true before each of the first [ceiling] admits, false after the last of
    them, and true again after one release. *)
Theorem CanConnect_ceiling :
  (forall ip rl,
      CanConnect ip rl = (bool_decide (conn_count rl ip < maxConns rl), rl)) /\
  (forall envAuth, maxConns (New None envAuth) = 10) /\
  (forall ip rl,
      conn_count rl ip = 0 -> 0 < maxConns rl < 2 ^ 63 ->
      let admits (k : nat) := Nat.iter k (AddConnection ip) rl in
      let ceiling := Z.to_nat (maxConns rl) in
      (forall k, (k < ceiling)%nat -> fst (CanConnect ip (admits k)) = true) /\
      fst (CanConnect ip (admits ceiling)) = false /\
      fst (CanConnect ip (RemoveConnection ip (admits ceiling))) = true).
Proof.
  split; [|split].
  - intros ip rl. unfold CanConnect. f_equal.
    destruct (Z.ltb_spec (conn_count rl ip) (maxConns rl)).
    + by rewrite bool_decide_eq_true_2.
    + rewrite bool_decide_eq_false_2; [done | lia].
  - reflexivity.
  - intros ip rl H0 Hc admits ceiling. subst admits ceiling.
    split; [|split].
    + intros k Hk. unfold CanConnect; simpl.
      rewrite maxConns_add_iter, conn_count_add_iter by lia.
      apply Z.ltb_lt. lia.
    + unfold CanConnect; simpl.
      rewrite maxConns_add_iter, conn_count_add_iter by lia.
      apply Z.ltb_ge. lia.
    + unfold CanConnect; cbn [fst].
      rewrite maxConns_remove, maxConns_add_iter, conn_count_remove.
      rewrite conn_count_add_iter by lia.
      rewrite wrap64_small by lia.
      apply Z.ltb_lt. lia.
Qed.

Lemma CanConnect_ceiling_witness :
  let rl := New None None in
  fst (CanConnect "10.0.0.1" (Nat.iter 9 (AddConnection "10.0.0.1") rl)) = true /\
  fst (CanConnect "10.0.0.1" (Nat.iter 10 (AddConnection "10.0.0.1") rl)) = false /\
  fst (CanConnect "10.0.0.1"
         (RemoveConnection "10.0.0.1"
            (Nat.iter 10 (AddConnection "10.0.0.1") rl))) = true.
Proof.
  intros rl.
  destruct (proj2 (proj2 CanConnect_ceiling) "10.0.0.1"%string rl)
    as (Hbelow & Hfull & Hagain).
  - reflexivity.
  - simpl. lia.
  - split; [|split].
    + apply (Hbelow 9%nat). simpl. lia.
    + exact Hfull.
    + exact Hagain.
Defined.

(** *** The window of authentication attempts *)

Lemma filter_filter_stronger {A} (f g : A -> bool) (l : list A) :
  (forall x, g x = true -> f x = true) ->
  List.filter g (List.filter f l) = List.filter g l.
Proof.
  intros Himp. induction l as [|x l IH]; simpl; [done|].
  destruct (f x) eqn:Hf; simpl.
  - by rewrite IH.
  - destruct (g x) eqn:Hg; [|done].
    apply Himp in Hg. congruence.
Qed.

Lemma filter_length_weaker {A} (f g : A -> bool) (l : list A) :
  (forall x, f x = true -> g x = true) ->
  (length (List.filter f l) <= length (List.filter g l))%nat.
Proof.
  intros Himp. induction l as [|x l IH]; simpl; [lia|].
  destruct (f x) eqn:Hf.
  - rewrite (Himp x Hf). simpl. lia.
  - destruct (g x); simpl; lia.
Qed.

Lemma minute_pos : 0 < minute.
Proof. unfold minute. lia. Qed.

Lemma fst_CanAuth now now' ip rl :
  fst (CanAuth now now' ip rl)
  = bool_decide (Z.of_nat (length (recent_of now (attempts rl ip))) < maxAuth rl).
Proof.
  unfold CanAuth.
  destruct (Z.leb_spec (maxAuth rl)
              (Z.of_nat (length (recent_of now (attempts rl ip))))); simpl.
  - rewrite bool_decide_eq_false_2; [done | lia].
  - by rewrite bool_decide_eq_true_2.
Qed.

Lemma attempts_CanAuth now now' ip rl :
  attempts (snd (CanAuth now now' ip rl)) ip
  = if fst (CanAuth now now' ip rl)
    then recent_of now (attempts rl ip) ++ [now']
    else recent_of now (attempts rl ip).
Proof.
  unfold CanAuth.
  destruct (Z.leb (maxAuth rl) _); unfold attempts at 1; simpl.
  - by rewrite lookup_insert_eq.
  - by rewrite !lookup_insert_eq.
Qed.

Lemma attempts_CanAuth_other now now' ip ip' rl :
  ip <> ip' ->
  attempts (snd (CanAuth now now' ip rl)) ip' = attempts rl ip'.
Proof.
  intros Hne. unfold CanAuth.
  destruct (Z.leb (maxAuth rl) _); unfold attempts; simpl.
  - by rewrite lookup_insert_ne.
  - by rewrite !lookup_insert_ne.
Qed.

Lemma maxAuth_CanAuth now now' ip rl :
  maxAuth (snd (CanAuth now now' ip rl)) = maxAuth rl.
Proof. unfold CanAuth. by destruct (Z.leb (maxAuth rl) _). Qed.

Lemma connections_CanAuth now now' ip rl :
  connections (snd (CanAuth now now' ip rl)) = connections rl.
Proof. unfold CanAuth. by destruct (Z.leb (maxAuth rl) _). Qed.

Lemma attempts_cleanup now ip rl :
  attempts (cleanup now rl) ip = recent_of now (attempts rl ip).
Proof.
  unfold attempts, cleanup; simpl. rewrite lookup_omap.
  destruct (authAttempts rl !! ip) as [l|]; simpl; [|done].
  by destruct (recent_of now l).
Qed.

Lemma tracks_recent ip t0 hist rl now :
  tracks ip t0 hist rl -> t0 <= now ->
  recent_of now (attempts rl ip) = List.filter (after (now - minute)) hist.
Proof.
  intros (_ & (cut & Hcut & Hatt) & _) Hnow.
  unfold recent_of. rewrite Hatt. apply filter_filter_stronger.
  intros t. unfold after. rewrite !Z.ltb_lt. lia.
Qed.

Lemma tracks_later ip t0 t1 hist rl rl' :
  tracks ip t0 hist rl -> t0 <= t1 ->
  maxAuth rl' = maxAuth rl ->
  attempts rl' ip = attempts rl ip ->
  tracks ip t1 hist rl'.
Proof.
  intros (Hle & (cut & Hcut & Hatt) & Hwin) Ht Hmax Hsame.
  split; [|split].
  - intros t Hin. specialize (Hle t Hin). lia.
  - exists cut. split; [lia | congruence].
  - intros w. rewrite Hmax. apply Hwin.
Qed.

Lemma tracks_pruned ip t0 hist rl rl' now t1 :
  tracks ip t0 hist rl -> t0 <= now -> now <= t1 ->
  maxAuth rl' = maxAuth rl ->
  attempts rl' ip = recent_of now (attempts rl ip) ->
  tracks ip t1 hist rl'.
Proof.
  intros Htr Hnow Ht Hmax Hatt.
  pose proof (tracks_recent _ _ _ _ _ Htr Hnow) as Hrec.
  destruct Htr as (Hle & _ & Hwin).
  split; [|split].
  - intros t Hin. specialize (Hle t Hin). lia.
  - exists (now - minute). split; [lia | congruence].
  - intros w. rewrite Hmax. apply Hwin.
Qed.

Lemma tracks_granted ip t0 hist rl rl' now now' :
  tracks ip t0 hist rl -> t0 <= now -> now <= now' ->
  maxAuth rl' = maxAuth rl ->
  Z.of_nat (length (recent_of now (attempts rl ip))) < maxAuth rl ->
  attempts rl' ip = recent_of now (attempts rl ip) ++ [now'] ->
  tracks ip now' (hist ++ [now']) rl'.
Proof.
  intros Htr Hnow Hnow' Hmax Hroom Hatt.
  pose proof (tracks_recent _ _ _ _ _ Htr Hnow) as Hrec.
  pose proof minute_pos as Hmin.
  destruct Htr as (Hle & _ & Hwin).
  split; [|split].
  - intros t Hin. apply in_app_or in Hin as [Hin|[<-|[]]]; [|lia].
    specialize (Hle t Hin). lia.
  - exists (now - minute). split; [lia|].
    rewrite Hatt, Hrec, List.filter_app. simpl.
    replace (after (now - minute) now') with true; [done|].
    symmetry. apply Z.ltb_lt. lia.
  - intros w. rewrite Hmax. unfold in_window. rewrite List.filter_app, length_app.
    simpl.
    destruct (Z.ltb_spec (w - minute) now'); simpl;
      [destruct (Z.leb_spec now' w); simpl|].
    + (* the new timestamp is in the window: the others were counted *)
      assert (length (List.filter
                        (fun t => Z.ltb (w - minute) t && Z.leb t w) hist)
              <= length (List.filter (after (now - minute)) hist))%nat as Hsub.
      { apply filter_length_weaker. intros t Ht.
        apply andb_prop in Ht as [Ht _]. apply Z.ltb_lt in Ht.
        apply Z.ltb_lt. lia. }
      rewrite <- Hrec in Hsub. lia.
    + specialize (Hwin w). unfold in_window in Hwin. lia.
    + specialize (Hwin w). unfold in_window in Hwin. lia.
Qed.

Lemma granted_window ip cs :
  forall rl t0 hist,
    tracks ip t0 hist rl -> clock_ok t0 cs ->
    forall w, Z.of_nat (length (in_window w (hist ++ granted ip cs rl)))
              <= Z.max 0 (maxAuth rl).
Proof.
  induction cs as [|c cs IH]; intros rl t0 hist Htr Hclock w.
  - simpl. rewrite app_nil_r. apply Htr.
  - destruct c as [now now' a|now]; simpl in Hclock |- *.
    + destruct Hclock as (Hnow & Hnow' & Hclock).
      rewrite <- (maxAuth_CanAuth now now' a rl).
      destruct (decide (a = ip)) as [->|Hne].
      * rewrite bool_decide_eq_true_2 by done. rewrite andb_true_r.
        pose proof (attempts_CanAuth now now' ip rl) as Hatt.
        pose proof (fst_CanAuth now now' ip rl) as Hfst.
        destruct (fst (CanAuth now now' ip rl)).
        -- symmetry in Hfst. apply bool_decide_eq_true_1 in Hfst.
           rewrite app_assoc.
           apply (IH _ now'); [|done].
           eapply tracks_granted; eauto using maxAuth_CanAuth.
        -- simpl. apply (IH _ now'); [|done].
           eapply tracks_pruned; eauto using maxAuth_CanAuth.
      * rewrite bool_decide_eq_false_2 by done. rewrite andb_false_r. simpl.
        apply (IH _ now'); [|done].
        eapply tracks_later; eauto using maxAuth_CanAuth.
        -- lia.
        -- by apply attempts_CanAuth_other.
    + destruct Hclock as (Hnow & Hclock).
      change (maxAuth rl) with (maxAuth (cleanup now rl)).
      apply (IH _ now); [|done].
      eapply (tracks_pruned _ _ _ _ _ now); eauto; [lia|].
      apply attempts_cleanup.
Qed.

Lemma tracks_New ip t0 envConns envAuth :
  tracks ip t0 [] (New envConns envAuth).
Proof.
  split; [|split].
  - intros t [].
  - exists (t0 - minute). split; [lia | done].
  - intros w. simpl. lia.
Qed.

(** C5. [CanAuth] grants an attempt exactly when fewer than the ceiling (5
    when the environment sets none) of the recorded attempts of the address
    are inside the last minute; a granted attempt is recorded, a refused one
    is not, and other addresses are not touched. So, whatever the calls on a
    new limiter, no window of one minute holds more granted attempts of an
    address than the ceiling, and as soon as the oldest of a full record has
    aged out, the next attempt is granted. *)
Theorem CanAuth_window :
  (forall now now' ip rl,
      let recent := recent_of now (attempts rl ip) in
      let r := CanAuth now now' ip rl in
      fst r = bool_decide (Z.of_nat (length recent) < maxAuth rl) /\
      attempts (snd r) ip = (if fst r then recent ++ [now'] else recent) /\
      (forall ip', ip <> ip' -> attempts (snd r) ip' = attempts rl ip') /\
      maxAuth (snd r) = maxAuth rl /\
      connections (snd r) = connections rl) /\
  (forall envConns, maxAuth (New envConns None) = 5) /\
  (forall envConns envAuth t0 cs ip w,
      clock_ok t0 cs ->
      Z.of_nat (length (in_window w (granted ip cs (New envConns envAuth))))
      <= Z.max 0 (maxAuth (New envConns envAuth))) /\
  (forall now now' ip rl oldest rest,
      attempts rl ip = oldest :: rest ->
      Z.of_nat (length (oldest :: rest)) <= maxAuth rl ->
      oldest <= now - minute ->
      fst (CanAuth now now' ip rl) = true).
Proof.
  split; [|split; [|split]].
  - intros now now' ip rl recent r. subst recent r.
    split; [apply fst_CanAuth|].
    split; [apply attempts_CanAuth|].
    split; [intros ip' Hne; by apply attempts_CanAuth_other|].
    split; [apply maxAuth_CanAuth | apply connections_CanAuth].
  - reflexivity.
  - intros envConns envAuth t0 cs ip w Hclock.
    apply (granted_window ip cs (New envConns envAuth) t0 []); [|done].
    apply tracks_New.
  - intros now now' ip rl oldest rest Hatt Hlen Hold.
    rewrite fst_CanAuth. apply bool_decide_eq_true_2.
    rewrite Hatt. unfold recent_of. simpl.
    replace (after (now - minute) oldest) with false.
    + pose proof (List.filter_length_le (after (now - minute)) rest).
      simpl in Hlen. lia.
    + symmetry. apply Z.ltb_ge. lia.
Qed.

Lemma CanAuth_window_witness :
  let ip := "10.0.0.1"%string in
  let s := 1000000000 in
  let cs := [Auth 0 0 ip; Auth s s ip; Auth (2 * s) (2 * s) ip;
             Auth (3 * s) (3 * s) ip; Auth (4 * s) (4 * s) ip;
             Auth (5 * s) (5 * s) ip; Auth (60 * s) (60 * s) ip] in
  clock_ok 0 cs /\
  granted ip cs (New None None) = [0; s; 2 * s; 3 * s; 4 * s; 60 * s] /\
  Z.of_nat (length (in_window (60 * s) (granted ip cs (New None None)))) <= 5.
Proof.
  intros ip s cs. split; [|split].
  - simpl. lia.
  - vm_compute. reflexivity.
  - apply (proj1 (proj2 (proj2 CanAuth_window)) None None 0 cs ip (60 * s)).
    simpl. lia.
Defined.

End RateLimitFacts.

Module ClientIPFacts.

Import ClientIP.

Section WithNet.
Context `{NetLib}.

Lemma GetClientIP_forwarded r :
  Header_Get (Header r) "X-Forwarded-For" <> EmptyString ->
  GetClientIP r = Header_Get (Header r) "X-Forwarded-For".
Proof.
  intros Hne. unfold GetClientIP.
  apply String.eqb_neq in Hne. by rewrite Hne.
Qed.

Lemma GetClientIP_real_ip r :
  Header_Get (Header r) "X-Forwarded-For" = EmptyString ->
  Header_Get (Header r) "X-Real-IP" <> EmptyString ->
  GetClientIP r = Header_Get (Header r) "X-Real-IP".
Proof.
  intros He Hne. unfold GetClientIP. rewrite He. simpl.
  apply String.eqb_neq in Hne. by rewrite Hne.
Qed.

Lemma GetClientIP_peer r :
  Header_Get (Header r) "X-Forwarded-For" = EmptyString ->
  Header_Get (Header r) "X-Real-IP" = EmptyString ->
  GetClientIP r = fst (fst (SplitHostPort (RemoteAddr r))).
Proof.
  intros He He'. unfold GetClientIP. rewrite He, He'. reflexivity.
Qed.

(** The key in one formula, and the two headers the client sets. *)
Lemma GetClientIP_cases r :
  let xff := Header_Get (Header r) "X-Forwarded-For" in
  let xri := Header_Get (Header r) "X-Real-IP" in
  GetClientIP r
  = if decide (xff <> EmptyString) then xff
    else if decide (xri <> EmptyString) then xri
    else fst (fst (SplitHostPort (RemoteAddr r))).
Proof.
  intros xff xri. subst xff xri.
  destruct (decide (Header_Get (Header r) "X-Forwarded-For" <> EmptyString))
    as [Hne|He].
  { by apply GetClientIP_forwarded. }
  apply dec_stable in He.
  destruct (decide (Header_Get (Header r) "X-Real-IP" <> EmptyString))
    as [Hne'|He'].
  { by apply GetClientIP_real_ip. }
  apply dec_stable in He'. by apply GetClientIP_peer.
Qed.

Lemma GetClientIP_first_forwarded hdr addr v more :
  v <> EmptyString ->
  hdr !! CanonicalMIMEHeaderKey "X-Forwarded-For" = Some (v :: more) ->
  GetClientIP {| Header := hdr; RemoteAddr := addr |} = v.
Proof.
  intros Hv Hlook.
  rewrite GetClientIP_forwarded; simpl; unfold Header_Get; by rewrite Hlook.
Qed.

Lemma GetClientIP_first_real_ip hdr addr v more :
  v <> EmptyString ->
  Header_Get hdr "X-Forwarded-For" = EmptyString ->
  hdr !! CanonicalMIMEHeaderKey "X-Real-IP" = Some (v :: more) ->
  GetClientIP {| Header := hdr; RemoteAddr := addr |} = v.
Proof.
  intros Hv Hxff Hlook.
  rewrite GetClientIP_real_ip; simpl; try done;
    unfold Header_Get; by rewrite Hlook.
Qed.

Lemma admit_request_key r rl :
  fst (admit_request r true rl)
  = (if fst (RateLimit.CanConnect (GetClientIP r) rl)
     then Accepted (GetClientIP r) else TooManyRequests) /\
  snd (admit_request r true rl)
  = (if fst (RateLimit.CanConnect (GetClientIP r) rl)
     then RateLimit.AddConnection (GetClientIP r) rl else rl).
Proof.
  unfold admit_request, RateLimit.CanConnect. simpl.
  by destruct (Z.ltb _ _).
Qed.

End WithNet.

Example GetClientIP_peer_address :
  @GetClientIP plain_net {| Header := ∅; RemoteAddr := "198.51.100.9:51324" |}
  = "198.51.100.9"%string.
Proof. reflexivity. Qed.

End ClientIPFacts.

Module HubFacts.

Import Hub.

Lemma registered_iff c h : registered c h <-> c ∈ registry h.
Proof.
  unfold registered, registry. rewrite list_elem_of_fmap. split.
  - intros [b Hb]. exists (c, b). split; [done|].
    by apply elem_of_map_to_list.
  - intros ([c' b] & -> & Hin). apply elem_of_map_to_list in Hin. by exists b.
Qed.

Lemma registry_NoDup h : NoDup (registry h).
Proof. apply NoDup_fst_map_to_list. Qed.

(** *** One iteration of the broadcast loop *)

Lemma broadcast_one_open message h c b ch :
  clients h !! c = Some b -> chans h !! c = Some ch -> closed ch = false ->
  broadcast_one message h c
  = Ok (if Nat.ltb (length (buf ch)) capacity
        then {| clients := clients h;
                chans := <[c := pushed message ch]> (chans h) |}
        else {| clients := delete c (clients h);
                chans := <[c := shut ch]> (chans h) |}).
Proof.
  intros Hc Hch Hopen. unfold broadcast_one. rewrite Hc, Hch, Hopen.
  destruct (Nat.ltb _ _); [done|]. simpl. by rewrite Hopen.
Qed.

Lemma broadcast_one_absent message h c :
  clients h !! c = None -> broadcast_one message h c = Ok h.
Proof. intros Hc. unfold broadcast_one. by rewrite Hc. Qed.

(** An iteration for [c] leaves every other client as it was. *)
Lemma broadcast_one_other message h c h' c' :
  broadcast_one message h c = Ok h' -> c <> c' ->
  clients h' !! c' = clients h !! c' /\ chans h' !! c' = chans h !! c'.
Proof.
  unfold broadcast_one. intros Hrun Hne.
  destruct (clients h !! c); [|by inversion Hrun].
  destruct (chans h !! c) as [ch|]; [|done].
  destruct (closed ch) eqn:Hcl; [done|].
  destruct (Nat.ltb _ _).
  - inversion Hrun; simpl. by rewrite lookup_insert_ne.
  - simpl in Hrun. rewrite Hcl in Hrun. inversion Hrun; simpl.
    by rewrite lookup_delete_ne, lookup_insert_ne.
Qed.

(** A client that is not registered is not touched by a broadcast, whatever
    the order. *)
Lemma broadcast_over_absent message order :
  forall h h' c,
    broadcast_over order message h = Ok h' -> clients h !! c = None ->
    clients h' !! c = None /\ chans h' !! c = chans h !! c.
Proof.
  induction order as [|c0 order IH]; intros h h' c Hrun Hc; simpl in Hrun.
  - inversion Hrun; subst. done.
  - destruct (broadcast_one message h c0) as [h1|] eqn:Hone; [|done].
    simpl in Hrun.
    destruct (decide (c0 = c)) as [->|Hne].
    + rewrite broadcast_one_absent in Hone by done. inversion Hone; subst.
      by apply IH.
    + destruct (broadcast_one_other _ _ _ _ c Hone Hne) as [Hcl Hch].
      destruct (IH h1 h' c Hrun) as [Hcl' Hch']; [congruence|].
      split; congruence.
Qed.

(** A broadcast registers nobody. *)
Lemma broadcast_over_registered message order :
  forall h h' c,
    broadcast_over order message h = Ok h' ->
    registered c h' -> registered c h.
Proof.
  intros h h' c Hrun Hreg. unfold registered in *.
  destruct (clients h !! c) eqn:Hc; [done|].
  destruct (broadcast_over_absent _ _ _ _ _ Hrun Hc) as [Hnone _].
  rewrite Hnone in Hreg. by destruct Hreg.
Qed.

(** A client whose channel is closed is left as it is by every broadcast that
    returns: were it registered and reached, the send would panic. *)
Lemma broadcast_over_shut message order :
  forall h h' c ch,
    broadcast_over order message h = Ok h' ->
    chans h !! c = Some ch -> closed ch = true ->
    clients h' !! c = clients h !! c /\ chans h' !! c = Some ch.
Proof.
  induction order as [|c0 order IH]; intros h h' c ch Hrun Hch Hcl;
    simpl in Hrun.
  - by inversion Hrun; subst.
  - destruct (broadcast_one message h c0) as [h1|] eqn:Hone; [|done].
    simpl in Hrun.
    destruct (decide (c0 = c)) as [->|Hne].
    + unfold broadcast_one in Hone.
      destruct (clients h !! c) eqn:Hc.
      * rewrite Hch, Hcl in Hone. done.
      * inversion Hone; subst h1.
        destruct (IH h h' c ch Hrun Hch Hcl) as [Hc' Hch']. by rewrite Hc'.
    + destruct (broadcast_one_other _ _ _ _ c Hone Hne) as [Hc1 Hch1].
      destruct (IH h1 h' c ch Hrun) as [Hc' Hch']; [congruence|done|].
      split; congruence.
Qed.

(** The whole pass, over clients that are registered with an open channel. *)
Lemma broadcast_over_pass message order :
  forall h,
    NoDup order ->
    (forall c, c ∈ order ->
       is_Some (clients h !! c) /\
       exists ch, chans h !! c = Some ch /\ closed ch = false) ->
    exists h',
      broadcast_over order message h = Ok h' /\
      (forall c, c ∉ order ->
         clients h' !! c = clients h !! c /\ chans h' !! c = chans h !! c) /\
      (forall c ch, c ∈ order -> chans h !! c = Some ch ->
         if Nat.ltb (length (buf ch)) capacity
         then clients h' !! c = clients h !! c /\
              chans h' !! c = Some (pushed message ch)
         else clients h' !! c = None /\ chans h' !! c = Some (shut ch)).
Proof.
  induction order as [|c0 order IH]; intros h Hnd Hopen.
  - exists h. split; [done|]. split; [done|].
    intros c ch Hin. by apply elem_of_nil in Hin.
  - apply NoDup_cons in Hnd as [Hfresh Hnd].
    destruct (Hopen c0) as [[b Hb] (ch0 & Hch0 & Hcl0)]; [by left|].
    pose proof (broadcast_one_open message h c0 b ch0 Hb Hch0 Hcl0) as Hone.
    set (h1 := if Nat.ltb (length (buf ch0)) capacity
               then {| clients := clients h;
                       chans := <[c0 := pushed message ch0]> (chans h) |}
               else {| clients := delete c0 (clients h);
                       chans := <[c0 := shut ch0]> (chans h) |}) in *.
    assert (Hother : forall c, c0 <> c ->
              clients h1 !! c = clients h !! c /\ chans h1 !! c = chans h !! c).
    { intros c Hne. by apply (broadcast_one_other message h c0 h1 c). }
    destruct (IH h1 Hnd) as (h' & Hrun & Hout & Hin).
    { intros c Hc. assert (c0 <> c) as Hne by (intros ->; done).
      destruct (Hother c Hne) as [-> ->]. apply Hopen. by right. }
    exists h'. split; [simpl; rewrite Hone; exact Hrun|]. split.
    + intros c Hc. apply not_elem_of_cons in Hc as [Hne Hc].
      destruct (Hout c Hc) as [-> ->]. by apply Hother.
    + intros c ch Hc Hch. apply elem_of_cons in Hc as [->|Hc].
      * destruct (Hout c0 Hfresh) as [-> ->].
        assert (ch = ch0) as -> by congruence.
        subst h1. destruct (Nat.ltb _ _); simpl.
        -- by rewrite lookup_insert_eq.
        -- by rewrite lookup_delete_eq, lookup_insert_eq.
      * assert (c0 <> c) as Hne by (intros ->; done).
        destruct (Hother c Hne) as [Hcl1 Hch1].
        specialize (Hin c ch Hc). rewrite Hch1 in Hin. specialize (Hin Hch).
        destruct (Nat.ltb (length (buf ch)) capacity); [|done].
        destruct Hin as [-> ->]. by rewrite Hcl1.
Qed.

(** A broadcast over a registry whose clients have open channels ends
    without a panic, whatever the order of the iteration; every registered
    client with room in its queue stays registered and gets the message, the
    same for all, at the end of its queue; every registered client with a
    full queue leaves the registry in that pass, has its channel closed and
    its queue as it was; a client that is not registered is not touched. *)
Lemma broadcast_delivery message order h :
  open_registry h ->
  iteration_order order h ->
  exists h',
    broadcast_over order message h = Ok h' /\
    (forall c ch, registered c h -> chans h !! c = Some ch ->
       if Nat.ltb (length (buf ch)) capacity
       then registered c h' /\
            chans h' !! c = Some {| buf := buf ch ++ [message]; closed := false |}
       else ~ registered c h' /\
            chans h' !! c = Some {| buf := buf ch; closed := true |}) /\
    (forall c, ~ registered c h ->
       ~ registered c h' /\ chans h' !! c = chans h !! c).
Proof.
  intros Hopen [Hnd Horder].
  destruct (broadcast_over_pass message order h Hnd) as (h' & Hrun & Hout & Hin).
  { intros c Hc. apply Horder in Hc. split; [done|]. by apply Hopen. }
  exists h'. split; [done|]. split.
  - intros c ch Hreg Hch. apply Horder in Hreg as Hc.
    specialize (Hin c ch Hc Hch). destruct (Nat.ltb _ _).
    + destruct Hin as [Hcl Hch']. split; [|done].
      unfold registered. by rewrite Hcl.
    + destruct Hin as [Hcl Hch']. split; [|done].
      unfold registered. rewrite Hcl. by intros [? ?].
  - intros c Hreg.
    assert (c ∉ order) as Hc by (intros Hc; by apply Horder in Hc).
    destruct (Hout c Hc) as [Hcl Hch]. split; [|done].
    unfold registered in *. by rewrite Hcl.
Qed.

Lemma two_clients_open : open_registry two_clients.
Proof.
  intros c [b Hb]. unfold two_clients in *; simpl in *.
  destruct (decide (c = 1%nat)) as [->|Hn1].
  { eexists. split; [apply lookup_insert_eq | done]. }
  destruct (decide (c = 2%nat)) as [->|Hn2].
  { eexists. split; [rewrite lookup_insert_ne by done; apply lookup_insert_eq | done]. }
  rewrite !lookup_insert_ne, lookup_empty in Hb by done. done.
Qed.

Lemma two_clients_order : iteration_order [2%nat; 1%nat] two_clients.
Proof.
  split.
  - apply NoDup_cons. split; [|apply NoDup_singleton].
    intros Hin. by apply list_elem_of_singleton in Hin.
  - intros c. unfold two_clients; simpl. split.
    + intros Hc. apply elem_of_cons in Hc as [->|Hc].
      * rewrite lookup_insert_ne by done. rewrite lookup_insert_eq. by eexists.
      * apply list_elem_of_singleton in Hc as ->.
        rewrite lookup_insert_eq. by eexists.
    + intros [b Hb].
      destruct (decide (c = 1%nat)) as [->|Hn1]; [do 2 constructor|].
      destruct (decide (c = 2%nat)) as [->|Hn2]; [constructor|].
      rewrite !lookup_insert_ne, lookup_empty in Hb by done. done.
Qed.

Lemma broadcast_delivery_witness :
  exists h',
    broadcast_over [2%nat; 1%nat] [Byte.x68; Byte.x69] two_clients = Ok h' /\
    (registered 1%nat h' /\
     chans h' !! 1%nat
     = Some {| buf := [[Byte.x68; Byte.x69]]; closed := false |}) /\
    (~ registered 2%nat h' /\
     chans h' !! 2%nat
     = Some {| buf := repeat [] capacity; closed := true |}).
Proof.
  destruct (broadcast_delivery [Byte.x68; Byte.x69] [2%nat; 1%nat] two_clients
              two_clients_open two_clients_order) as (h' & Hrun & Hreg & _).
  exists h'. split; [exact Hrun|]. split.
  - apply (Hreg 1%nat make_chan).
    + unfold registered, two_clients; simpl. rewrite lookup_insert_eq. by eexists.
    + unfold two_clients; simpl. apply lookup_insert_eq.
  - apply (Hreg 2%nat {| buf := repeat [] capacity; closed := false |}).
    + unfold registered, two_clients; simpl.
      rewrite lookup_insert_ne by done. rewrite lookup_insert_eq. by eexists.
    + unfold two_clients; simpl.
      rewrite lookup_insert_ne by done. apply lookup_insert_eq.
Defined.

(** *** Register and unregister *)

Lemma register_registers c h :
  exists h', register c h = Ok h' /\ registered c h' /\
             chans h' = chans h /\
             forall c', c' <> c -> clients h' !! c' = clients h !! c'.
Proof.
  eexists. split; [reflexivity|]. split; [|split].
  - unfold registered; simpl. rewrite lookup_insert_eq. by eexists.
  - reflexivity.
  - intros c' Hne. simpl. by rewrite lookup_insert_ne.
Qed.

Lemma unregister_absent c h : ~ registered c h -> unregister c h = Ok h.
Proof.
  unfold registered, unregister. intros Hno.
  destruct (clients h !! c); [|done]. exfalso. apply Hno. by eexists.
Qed.

Lemma unregister_present c h ch :
  registered c h -> chans h !! c = Some ch -> closed ch = false ->
  unregister c h = Ok {| clients := delete c (clients h);
                         chans := <[c := shut ch]> (chans h) |}.
Proof.
  unfold registered, unregister. intros [b Hb] Hch Hopen.
  rewrite Hb, Hch. simpl. by rewrite Hopen.
Qed.

(** Whenever an unregister returns, the client is out of the registry and
    the other clients are where they were. *)
Lemma unregister_removes c h h' :
  unregister c h = Ok h' ->
  ~ registered c h' /\
  forall c', c' <> c ->
    clients h' !! c' = clients h !! c' /\ chans h' !! c' = chans h !! c'.
Proof.
  unfold unregister, registered. intros Hrun.
  destruct (clients h !! c) eqn:Hc.
  - destruct (chans h !! c) as [ch|]; [|done]. simpl in Hrun.
    destruct (closed ch); [done|]. inversion Hrun; subst; simpl. split.
    + rewrite lookup_delete_eq. by intros [? ?].
    + intros c' Hne. by rewrite lookup_delete_ne, lookup_insert_ne.
  - inversion Hrun; subst. split; [|done]. rewrite Hc. by intros [? ?].
Qed.

Lemma open_registry_register c h ch :
  open_registry h -> chans h !! c = Some ch -> closed ch = false ->
  forall h', register c h = Ok h' -> open_registry h'.
Proof.
  intros Hopen Hch Hcl h' Hrun. inversion Hrun; subst.
  intros c' [b Hb]; simpl in *.
  destruct (decide (c' = c)) as [->|Hne]; [by exists ch|].
  rewrite lookup_insert_ne in Hb by done. apply Hopen. by exists b.
Qed.

Lemma open_registry_unregister c h :
  open_registry h ->
  exists h', unregister c h = Ok h' /\ open_registry h'.
Proof.
  intros Hopen. destruct (decide (registered c h)) as [Hreg|Hno].
  - destruct (Hopen c Hreg) as (ch & Hch & Hcl).
    eexists. split; [by apply (unregister_present c h ch)|].
    intros c' [b Hb]; simpl in *.
    destruct (decide (c' = c)) as [->|Hne].
    { by rewrite lookup_delete_eq in Hb. }
    rewrite lookup_delete_ne in Hb by done. rewrite lookup_insert_ne by done.
    apply Hopen. by exists b.
  - exists h. split; [by apply unregister_absent | done].
Qed.

Lemma open_registry_broadcast message order h :
  open_registry h -> iteration_order order h ->
  exists h', broadcast_over order message h = Ok h' /\ open_registry h'.
Proof.
  intros Hopen [Hnd Horder].
  destruct (broadcast_over_pass message order h Hnd) as (h' & Hrun & Hout & Hin).
  { intros c Hc. apply Horder in Hc. split; [done|]. by apply Hopen. }
  exists h'. split; [done|]. intros c [b Hb].
  destruct (decide (c ∈ order)) as [Hc|Hc].
  - apply Horder in Hc as Hreg.
    destruct (Hopen c Hreg) as (ch & Hch & Hcl).
    specialize (Hin c ch Hc Hch).
    destruct (Nat.ltb (length (buf ch)) capacity).
    + destruct Hin as [_ Hch']. by exists (pushed message ch).
    + destruct Hin as [Hnone _]. congruence.
  - destruct (Hout c Hc) as [Hcl _]. rewrite Hcl in Hb.
    exfalso. apply Hc, Horder. by exists b.
Qed.

(** Within the protocol the hub never panics, and its registry keeps open
    channels only. *)
Lemma run_protocol ops :
  forall h, open_registry h -> protocol ops h ->
            exists h', run ops h = Ok h' /\ open_registry h'.
Proof.
  induction ops as [|o ops IH]; intros h Hopen Hprot.
  - by exists h.
  - destruct Hprot as [Hallowed Hrest].
    assert (exists h1, run_op o h = Ok h1 /\ open_registry h1)
      as (h1 & Hone & Hopen1).
    { destruct o as [c|c|message order]; simpl in *.
      - destruct Hallowed as (ch & Hch & Hcl). eexists. split; [reflexivity|].
        by eapply (open_registry_register c h ch).
      - by apply open_registry_unregister.
      - by apply open_registry_broadcast. }
    destruct (IH h1 Hopen1 (Hrest h1 Hone)) as (h' & Hrun & Hopen').
    exists h'. split; [|done]. simpl. by rewrite Hone.
Qed.

End HubFacts.

Module PumpFacts.

Import Hub Pump HubFacts.

Lemma foreign_op me o h h' :
  foreign me o = true -> run_op o h = Ok h' ->
  (registered me h' -> registered me h) /\
  (~ registered me h -> chans h' !! me = chans h !! me).
Proof.
  intros Hfor Hrun. destruct o as [c|c|message order]; simpl in *.
  - apply negb_true_iff, Nat.eqb_neq in Hfor.
    inversion Hrun; subst. unfold registered; simpl.
    by rewrite lookup_insert_ne.
  - apply negb_true_iff, Nat.eqb_neq in Hfor.
    destruct (unregister_removes c h h' Hrun) as [_ Hother].
    destruct (Hother me) as [Hcl Hch]; [done|].
    unfold registered. rewrite Hcl. by split.
  - split.
    + by apply (broadcast_over_registered message order).
    + intros Hno. unfold registered in Hno.
      destruct (clients h !! me) eqn:Hc; [exfalso; apply Hno; by eexists|].
      by destruct (broadcast_over_absent _ _ _ _ _ Hrun Hc).
Qed.

Lemma start_registered_ok me h : registered_ok me (start me h).
Proof.
  intros [b Hb]. unfold start in Hb; simpl in Hb.
  by rewrite lookup_delete_eq in Hb.
Qed.

(** What a send of the reader loop leaves of the state. *)
Lemma reader_sends_frame me resp waiting s s' :
  reader_sends me resp waiting s = Some (Ok s') ->
  clients (hub s') = clients (hub s) /\ userID s' = userID s /\
  writer s' = writer s /\ conn_closes s' = conn_closes s /\
  released s' = released s /\
  (forall c, c <> me -> chans (hub s') !! c = chans (hub s) !! c).
Proof.
  unfold reader_sends. intros Hsend.
  destruct (my_chan me s) as [ch|]; [|done].
  destruct (closed ch).
  { by inversion Hsend; subst. }
  destruct (Nat.ltb _ _).
  { inversion Hsend; subst; simpl. repeat split; try done.
    intros c Hne. by rewrite lookup_insert_ne. }
  destruct waiting; [done|]. by inversion Hsend; subst.
Qed.

(** The reader's events need a reader that is there and not blocked. *)
Ltac reader_on Hstep :=
  unfold reader_free in Hstep;
  match type of Hstep with
  | context [reader ?s] =>
      destruct (reader s) eqn:?; [|done];
      destruct (parked s) eqn:?; try done
  end.

Lemma step_registered_ok me e s s' :
  (forall uid, e = AuthSuccess uid -> uid <> 0) ->
  registered_ok me s -> step me e s = Some (Ok s') -> registered_ok me s'.
Proof.
  intros Hid Hinv Hstep. unfold registered_ok in *.
  destruct e as [|uid|resp| |resp order| | | |o]; simpl in Hstep.
  - (* ReadError *)
    reader_on Hstep.
    destruct (Z.eqb_spec (userID s) 0) as [Hz|Hnz]; simpl in Hstep.
    + inversion Hstep; subst; simpl. exact Hinv.
    + destruct (unregister me (hub s)) as [h'|] eqn:Hun; [|done].
      simpl in Hstep. by inversion Hstep; subst.
  - (* AuthSuccess *)
    reader_on Hstep. simpl in Hstep.
    inversion Hstep; subst; simpl. intros _. by apply (Hid uid).
  - (* ReaderSend *)
    reader_on Hstep.
    destruct (reader_sends_frame me resp false s s' Hstep) as (Hcl & Hu & _).
    unfold registered. rewrite Hcl, Hu. exact Hinv.
  - (* ReaderSendEnds *)
    destruct (reader s); [|done]. destruct (parked s) as [resp|]; [|done].
    destruct (reader_sends_frame me resp true s s' Hstep) as (Hcl & Hu & _).
    unfold registered. rewrite Hcl, Hu. exact Hinv.
  - (* ReaderBroadcast *)
    reader_on Hstep.
    destruct (broadcast_over order resp (hub s)) as [h'|] eqn:Hb; [|done].
    simpl in Hstep. inversion Hstep; subst; simpl. intros Hreg.
    apply Hinv.
    by apply (broadcast_over_registered resp order (hub s) h').
  - (* WriteOk *)
    destruct (writer s); [|done].
    destruct (my_chan me s) as [ch|]; [|done].
    destruct (buf ch); [done|].
    inversion Hstep; subst; simpl. exact Hinv.
  - (* WriteError *)
    destruct (writer s); [|done].
    destruct (my_chan me s) as [ch|]; [|done].
    destruct (buf ch); [done|].
    inversion Hstep; subst; simpl. exact Hinv.
  - (* WriterRangeEnds *)
    destruct (writer s); [|done].
    destruct (my_chan me s) as [ch|]; [|done].
    destruct (buf ch); [|done].
    destruct (closed ch); [|done].
    inversion Hstep; subst; simpl. exact Hinv.
  - (* HubServes *)
    destruct (foreign me o) eqn:Hfor; [|done].
    destruct (run_op o (hub s)) as [h'|] eqn:Hop; [|done].
    simpl in Hstep. inversion Hstep; subst; simpl. intros Hreg.
    apply Hinv. by destruct (foreign_op me o (hub s) h' Hfor Hop) as [Hback _];
      apply Hback.
Qed.

(** Along every run of a connection, the client is in the registry only
    after an authentication has given it a user id. *)
Lemma exec_registered_ok me evs :
  forall s s',
    ids_nonzero evs -> registered_ok me s ->
    exec me evs s = Some (Ok s') -> registered_ok me s'.
Proof.
  induction evs as [|e evs IH]; intros s s' Hids Hinv Hrun; simpl in Hrun.
  - by inversion Hrun; subst.
  - destruct (step me e s) as [[s1|]|] eqn:Hstep; [|done|done].
    apply (IH s1 s'); [| |done].
    + intros uid Hin. apply Hids. by right.
    + eapply (step_registered_ok me e s); [|done|done].
      intros uid ->. apply Hids. by left.
Qed.

(** *** The transport is closed by the writer, once *)

Lemma step_closed_by_writer me e s s' :
  closed_by_writer s -> step me e s = Some (Ok s') -> closed_by_writer s'.
Proof.
  unfold closed_by_writer. intros Hinv Hstep.
  destruct e as [|uid|resp| |resp order| | | |o]; simpl in Hstep.
  - reader_on Hstep.
    destruct (negb _); simpl in Hstep.
    + destruct (unregister me (hub s)); [|done]. simpl in Hstep.
      by inversion Hstep; subst.
    + by inversion Hstep; subst.
  - reader_on Hstep. simpl in Hstep. by inversion Hstep; subst.
  - reader_on Hstep.
    destruct (reader_sends_frame me resp false s s' Hstep)
      as (_ & _ & -> & -> & -> & _).
    exact Hinv.
  - destruct (reader s); [|done]. destruct (parked s) as [resp|]; [|done].
    destruct (reader_sends_frame me resp true s s' Hstep)
      as (_ & _ & -> & -> & -> & _).
    exact Hinv.
  - reader_on Hstep.
    destruct (broadcast_over order resp (hub s)); [|done]. simpl in Hstep.
    by inversion Hstep; subst.
  - destruct (writer s) eqn:Hw; [|done].
    destruct (my_chan me s) as [ch|]; [|done].
    destruct (buf ch); [done|].
    inversion Hstep; subst; simpl. by rewrite Hw.
  - destruct (writer s) eqn:Hw; [|done].
    destruct (my_chan me s) as [ch|]; [|done].
    destruct (buf ch); [done|].
    inversion Hstep; subst; simpl. destruct Hinv as [-> ->]. done.
  - destruct (writer s) eqn:Hw; [|done].
    destruct (my_chan me s) as [ch|]; [|done].
    destruct (buf ch); [|done].
    destruct (closed ch); [|done].
    inversion Hstep; subst; simpl. destruct Hinv as [-> ->]. done.
  - destruct (foreign me o); [|done].
    destruct (run_op o (hub s)); [|done]. simpl in Hstep.
    by inversion Hstep; subst.
Qed.

Lemma exec_closed_by_writer me evs :
  forall s s',
    closed_by_writer s -> exec me evs s = Some (Ok s') -> closed_by_writer s'.
Proof.
  induction evs as [|e evs IH]; intros s s' Hinv Hrun; simpl in Hrun.
  - by inversion Hrun; subst.
  - destruct (step me e s) as [[s1|]|] eqn:Hstep; [|done|done].
    apply (IH s1 s'); [|done]. by apply (step_closed_by_writer me e s).
Qed.

(** *** A reader that returns before any authentication *)

Lemma step_orphaned me e s s' :
  orphaned me s -> step me e s = Some (Ok s') -> orphaned me s'.
Proof.
  intros (Hr & Hw & Hno & Hch & Hcl & Hrel) Hstep.
  destruct e as [|uid|resp| |resp order| | | |o]; simpl in Hstep;
    unfold reader_free in Hstep;
    rewrite ?Hr, ?Hw, ?Hch in Hstep; simpl in Hstep; try done.
  destruct (foreign me o) eqn:Hfor; [|done].
  destruct (run_op o (hub s)) as [h'|] eqn:Hop; [|done].
  simpl in Hstep. inversion Hstep; subst.
  destruct (foreign_op me o (hub s) h' Hfor Hop) as [Hback Hsame].
  unfold orphaned, my_chan in *; simpl.
  repeat split; try done.
  - intros Hreg. by apply Hno, Hback.
  - rewrite Hsame; done.
Qed.

Lemma exec_orphaned me evs :
  forall s s', orphaned me s -> exec me evs s = Some (Ok s') -> orphaned me s'.
Proof.
  induction evs as [|e evs IH]; intros s s' Hinv Hrun; simpl in Hrun.
  - by inversion Hrun; subst.
  - destruct (step me e s) as [[s1|]|] eqn:Hstep; [|done|done].
    apply (IH s1 s'); [|done]. by apply (step_orphaned me e s).
Qed.

(** In an orphaned connection nothing of its own can happen any more: the
    reader has returned, and the writer has nothing to take and no close to
    see. *)
Lemma orphaned_stuck me s e :
  orphaned me s -> (forall o, e <> HubServes o) -> step me e s = None.
Proof.
  intros (Hr & Hw & Hno & Hch & Hcl & Hrel) Hown.
  destruct e as [|uid|resp| |resp order| | | |o]; simpl;
    unfold reader_free;
    rewrite ?Hr, ?Hw, ?Hch; simpl; try done.
  by destruct (Hown o).
Qed.

(** C7. A connection whose peer goes away before any authentication: the
    read error ends the reader loop without an unregistration (the user id
    is 0), nobody closes the send channel, and from then on, whatever the
    hub and the other connections do, the writer goroutine stays in its
    loop: the transport is never closed and the connection count of the
    address is never released. *)
Theorem unauthenticated_read_error_leaks me h :
  exists s1,
    step me ReadError (start me h) = Some (Ok s1) /\
    reader s1 = Exited /\
    (forall e, (forall o, e <> HubServes o) -> step me e s1 = None) /\
    (forall evs s',
        exec me evs s1 = Some (Ok s') ->
        writer s' = Running /\ conn_closes s' = 0%nat /\ released s' = 0%nat).
Proof.
  assert (orphaned me (reader_returns (start me h))) as Horph.
  { unfold orphaned, reader_returns, start, my_chan, registered; simpl.
    repeat split; try done.
    - rewrite lookup_delete_eq. by intros [? ?].
    - apply lookup_insert_eq. }
  exists (reader_returns (start me h)).
  split; [reflexivity|]. split; [reflexivity|]. split.
  - intros e He. by apply orphaned_stuck.
  - intros evs s' Hrun.
    destruct (exec_orphaned me evs _ s' Horph Hrun)
      as (_ & Hw & _ & _ & Hcl & Hrel).
    done.
Qed.

(** The sibling path: when the user id is set and the client is registered
    with an open channel, the read error unregisters it and closes the
    channel, and the writer can then leave its loop and close the
    transport. *)
Lemma authenticated_read_error_unregisters me s ch :
  reader s = Running -> parked s = None -> writer s = Running ->
  userID s <> 0 ->
  registered me (hub s) -> my_chan me s = Some ch -> closed ch = false ->
  buf ch = [] -> closed_by_writer s ->
  exists s1 s2,
    step me ReadError s = Some (Ok s1) /\
    reader s1 = Exited /\ ~ registered me (hub s1) /\
    step me WriterRangeEnds s1 = Some (Ok s2) /\
    reader s2 = Exited /\ writer s2 = Exited /\ conn_closes s2 = 1%nat.
Proof.
  intros Hr Hp Hw Hid Hreg Hch Hcl Hbuf Hinv.
  unfold my_chan in Hch.
  pose proof (unregister_present me (hub s) ch Hreg Hch Hcl) as Hun.
  unfold closed_by_writer in Hinv. rewrite Hw in Hinv. destruct Hinv as [Hc0 _].
  eexists _, _. split.
  { simpl. unfold reader_free. rewrite Hr, Hp.
    destruct (Z.eqb_spec (userID s) 0); [exfalso; done|].
    simpl. rewrite Hun. reflexivity. }
  split; [reflexivity|]. split.
  { simpl. unfold registered; simpl. rewrite lookup_delete_eq. by intros [? ?]. }
  split.
  { simpl. rewrite Hw. unfold my_chan; simpl. rewrite lookup_insert_eq.
    simpl. rewrite Hbuf. reflexivity. }
  simpl. by rewrite Hc0.
Qed.

(** *** A channel that has been closed *)

(** No operation of the hub that returns touches a client whose channel is
    closed, unless it registers that very client. *)
Lemma run_op_shut o h h' c ch :
  o <> Register c ->
  run_op o h = Ok h' -> chans h !! c = Some ch -> closed ch = true ->
  clients h' !! c = clients h !! c /\ chans h' !! c = Some ch.
Proof.
  intros Hno Hrun Hch Hcl. destruct o as [c0|c0|message order]; simpl in Hrun.
  - inversion Hrun; subst; simpl.
    rewrite lookup_insert_ne by (intros ->; done). done.
  - destruct (decide (c0 = c)) as [->|Hne].
    + unfold unregister in Hrun. destruct (clients h !! c) eqn:Hc.
      * rewrite Hch in Hrun. simpl in Hrun. by rewrite Hcl in Hrun.
      * by inversion Hrun; subst.
    + destruct (unregister_removes c0 h h' Hrun) as [_ Hother].
      destruct (Hother c) as [-> ->]; [by intros ->|]. done.
  - by apply (broadcast_over_shut message order h h' c ch).
Qed.

Lemma foreign_not_register me o : foreign me o = true -> o <> Register me.
Proof. intros Hfor ->. simpl in Hfor. by rewrite Nat.eqb_refl in Hfor. Qed.

(** Once the channel of a connection is closed it stays closed, and its
    queue only loses what the writer takes. *)
Lemma step_shut me e s s' q :
  my_chan me s = Some {| buf := q; closed := true |} ->
  step me e s = Some (Ok s') ->
  my_chan me s' = Some {| buf := drop (takes e) q; closed := true |} /\
  (takes e <= length q)%nat.
Proof.
  intros Hch Hstep. unfold my_chan in *.
  destruct e as [|uid|resp| |resp order| | | |o]; simpl in Hstep;
    cbn [takes]; rewrite ?drop_0.
  all: try (split; [|lia]).
  - reader_on Hstep.
    destruct (negb _); simpl in Hstep; [|by inversion Hstep; subst].
    destruct (unregister me (hub s)) as [h'|] eqn:Hun; [|done].
    simpl in Hstep. inversion Hstep; subst; simpl.
    by destruct (run_op_shut (Unregister me) (hub s) h' me _
                   ltac:(done) Hun Hch eq_refl).
  - reader_on Hstep. simpl in Hstep. by inversion Hstep; subst.
  - reader_on Hstep. unfold reader_sends, my_chan in Hstep.
    rewrite Hch in Hstep. simpl in Hstep. by inversion Hstep; subst.
  - destruct (reader s); [|done]. destruct (parked s); [|done].
    unfold reader_sends, my_chan in Hstep.
    rewrite Hch in Hstep. simpl in Hstep. by inversion Hstep; subst.
  - reader_on Hstep.
    destruct (broadcast_over order resp (hub s)) as [h'|] eqn:Hb; [|done].
    simpl in Hstep. inversion Hstep; subst; simpl.
    by destruct (broadcast_over_shut resp order (hub s) h' me _ Hb Hch eq_refl).
  - destruct (writer s); [|done]. unfold my_chan in Hstep.
    rewrite Hch in Hstep. simpl in Hstep.
    destruct q as [|m q]; [done|]. inversion Hstep; subst; simpl.
    rewrite lookup_insert_eq. split; [done | lia].
  - destruct (writer s); [|done]. unfold my_chan in Hstep.
    rewrite Hch in Hstep. simpl in Hstep.
    destruct q as [|m q]; [done|]. inversion Hstep; subst; simpl.
    rewrite lookup_insert_eq. split; [done | lia].
  - destruct (writer s); [|done]. unfold my_chan in Hstep.
    rewrite Hch in Hstep. simpl in Hstep.
    destruct q as [|m q]; [|done]. by inversion Hstep; subst.
  - destruct (foreign me o) eqn:Hfor; [|done].
    destruct (run_op o (hub s)) as [h'|] eqn:Hop; [|done].
    simpl in Hstep. inversion Hstep; subst; simpl.
    by destruct (run_op_shut o (hub s) h' me _
                   (foreign_not_register me o Hfor) Hop Hch eq_refl).
Qed.


(** A stranded client stays stranded. *)
Lemma step_stranded me e s s' :
  stranded me s -> step me e s = Some (Ok s') -> stranded me s'.
Proof.
  intros (Hr & Hreg & q & Hch) Hstep.
  destruct (step_shut me e s s' q Hch Hstep) as [Hch' _].
  assert (reader s' = Exited /\ clients (hub s') !! me = clients (hub s) !! me)
    as [Hr' Hcl'].
  { destruct e as [|uid|resp| |resp order| | | |o]; simpl in Hstep;
      unfold reader_free in Hstep; rewrite ?Hr in Hstep; try done.
    - destruct (writer s); [|done]. destruct (my_chan me s) as [ch|]; [|done].
      destruct (buf ch); [done|]. by inversion Hstep; subst.
    - destruct (writer s); [|done]. destruct (my_chan me s) as [ch|]; [|done].
      destruct (buf ch); [done|]. by inversion Hstep; subst.
    - destruct (writer s); [|done]. destruct (my_chan me s) as [ch|]; [|done].
      destruct (buf ch); [|done]. destruct (closed ch); [|done].
      by inversion Hstep; subst.
    - destruct (foreign me o) eqn:Hfor; [|done].
      destruct (run_op o (hub s)) as [h'|] eqn:Hop; [|done].
      simpl in Hstep. inversion Hstep; subst; simpl. split; [done|].
      by destruct (run_op_shut o (hub s) h' me _
                     (foreign_not_register me o Hfor) Hop Hch eq_refl). }
  split; [done|]. split; [|by eexists].
  unfold registered. by rewrite Hcl'.
Qed.

Lemma exec_stranded me evs :
  forall s s', stranded me s -> exec me evs s = Some (Ok s') -> stranded me s'.
Proof.
  induction evs as [|e evs IH]; intros s s' Hinv Hrun; simpl in Hrun.
  - by inversion Hrun; subst.
  - destruct (step me e s) as [[s1|]|] eqn:Hstep; [|done|done].
    apply (IH s1 s'); [|done]. by apply (step_stranded me e s).
Qed.

(** *** A client that the hub dropped and that logs in again *)

(** C3. The registry does not keep to "registered once, between the
    authentication and the unregistration": nothing in the switch refuses a
    second [auth] on a connection. In the run [overflow] the client is
    registered, its queue fills and a broadcast drops it (the hub deletes it
    and closes its channel); the second login then puts the very same
    client back into the registry, with its channel closed; the reply to
    that login panics in the reader loop, which is gone from then on, so
    no read error will ever unregister the client: on every run that goes
    on, it stays registered. *)
Theorem dropped_client_is_registered_again :
  exists s1 s2,
    exec 1%nat overflow (start 1%nat newHub) = Some (Ok s1) /\
    ~ registered 1%nat (hub s1) /\
    my_chan 1%nat s1
    = Some {| buf := login_reply :: repeat a_reply 255; closed := true |} /\
    exec 1%nat second_login s1 = Some (Ok s2) /\
    registered 1%nat (hub s2) /\
    my_chan 1%nat s2
    = Some {| buf := login_reply :: repeat a_reply 255; closed := true |} /\
    reader s2 = Exited /\
    step 1%nat ReadError s2 = None /\
    forall evs s3,
      exec 1%nat evs s2 = Some (Ok s3) ->
      registered 1%nat (hub s3) /\ reader s3 = Exited.
Proof.
  eexists _, _. split; [vm_compute; reflexivity|].
  split; [unfold registered; vm_compute; by intros [? ?]|].
  split; [vm_compute; reflexivity|].
  split; [vm_compute; reflexivity|].
  match goal with
  | |- registered _ (hub ?s) /\ _ =>
      assert (stranded 1%nat s) as Hstr
  end.
  { split; [reflexivity|]. split.
    - unfold registered. vm_compute. by eexists.
    - eexists. vm_compute. reflexivity. }
  split; [apply Hstr|].
  split; [vm_compute; reflexivity|].
  split; [reflexivity|].
  split; [reflexivity|].
  intros evs s3 Hrun.
  destruct (exec_stranded 1%nat evs _ s3 Hstr Hrun) as (Hr & Hin & _).
  done.
Qed.

(** C2. A broadcast does not serve every registry the program can be in.
    In the run [overflow] the client is dropped with its queue full; the
    writer then takes one message, so the queue has room again; the second
    login registers the client again. The registry now holds this one
    client, whose queue is not at capacity, and the broadcast neither
    delivers the message to it nor removes it: the send on its closed
    channel panics in the hub goroutine, which ends the server. *)
Theorem broadcast_after_second_login_panics :
  exists s,
    exec 1%nat (overflow ++ WriteOk :: second_login) (start 1%nat newHub)
    = Some (Ok s) /\
    iteration_order [1%nat] (hub s) /\
    my_chan 1%nat s = Some {| buf := repeat a_reply 255; closed := true |} /\
    (length (repeat a_reply 255) < capacity)%nat /\
    (forall message,
        broadcast_over [1%nat] message (hub s) = Panic "send on closed channel") /\
    (forall message,
        step 1%nat (HubServes (Broadcast message [1%nat])) s
        = Some (Panic "send on closed channel")).
Proof.
  eexists. split; [vm_compute; reflexivity|].
  match goal with
  | |- iteration_order _ (hub ?s) /\ _ =>
      assert (hub s = {| clients := {[ 1%nat := true ]};
                         chans := {[ 1%nat := {| buf := repeat a_reply 255;
                                                 closed := true |} ]} |}) as Hhub
        by (vm_compute; reflexivity);
      set (s0 := s) in *
  end.
  assert (forall message,
             broadcast_over [1%nat] message (hub s0)
             = Panic "send on closed channel") as Hpanic.
  { intros message. rewrite Hhub. simpl. unfold broadcast_one; simpl.
    rewrite !lookup_singleton_eq. reflexivity. }
  split; [|split; [|split; [|split]]].
  - rewrite Hhub. split.
    + apply NoDup_singleton.
    + intros c. simpl. rewrite list_elem_of_singleton. split.
      * intros ->. rewrite lookup_singleton_eq. by eexists.
      * intros [b Hb]. destruct (decide (c = 1%nat)) as [|Hne]; [done|].
        by rewrite lookup_singleton_ne in Hb.
  - unfold my_chan. rewrite Hhub. simpl. apply lookup_singleton_eq.
  - rewrite repeat_length. unfold capacity. lia.
  - exact Hpanic.
  - intros message. cbn [step foreign]. cbn [run_op]. by rewrite Hpanic.
Qed.

End PumpFacts.

Module ConnFacts.

Import Conn.

Section WithStore.
Context `{Json} `{Store}.

(** Every case of the switch but two starts with the guard on the user id:
    with no user id, a message of any type other than auth and check_user is
    ignored. *)
Lemma unauthenticated_ignored clientIP now now' m c w :
  userID c = 0 ->
  Type_ m <> "auth"%string -> Type_ m <> "check_user"%string ->
  ignored c w (dispatch clientIP now now' m c w).
Proof.
  intros Hid Hauth Hcheck. unfold ignored, dispatch.
  apply String.eqb_neq in Hauth. apply String.eqb_neq in Hcheck.
  rewrite Hauth, Hcheck.
  unfold case_typing, case_create_conversation, case_get_messages,
    case_read_receipt, case_send_message, case_get_conversations,
    case_add_participant, case_rename_conversation, case_leave_conversation.
  rewrite Hid. simpl.
  repeat match goal with
         | |- context [String.eqb (Type_ m) ?t] =>
             destruct (String.eqb (Type_ m) t); try reflexivity
         end.
Qed.

Ltac no_register H :=
  repeat match type of H with
         | _ ∈ [] => by apply elem_of_nil in H
         | _ ∈ _ :: _ => apply elem_of_cons in H as [H|H]; [discriminate H|]
         end.

(** The switch sends to [hub.register] in one place only: the auth case,
    after [handleAuth] has returned a user, whose id the client then
    carries. *)
Lemma register_only_after_auth clientIP now now' m c w c' w' outs :
  dispatch clientIP now now' m c w = (c', w', outs) ->
  HubRegister ∈ outs ->
  Type_ m = "auth"%string /\
  exists uid name d,
    handleAuth (Unmarshal_Auth (Payload m)) (w_db w) = (inr (uid, name), d) /\
    userID c' = uid.
Proof.
  intros Hd Hin. unfold dispatch in Hd.
  destruct (String.eqb_spec (Type_ m) "auth") as [Hty|_].
  { split; [done|]. unfold case_auth in Hd.
    destruct (RateLimit.CanAuth now now' clientIP (w_limiter w)) as [ok rl].
    destruct ok; simpl in Hd.
    - destruct (handleAuth (Unmarshal_Auth (Payload m)) (w_db w))
        as [[e|[uid name]] d] eqn:Hauth; inversion Hd; subst.
      + no_register Hin.
      + by exists uid, name, d.
    - inversion Hd; subst. no_register Hin. }
  unfold case_typing, case_check_user, case_create_conversation,
    case_get_messages, case_read_receipt, case_send_message,
    case_get_conversations, case_add_participant, case_rename_conversation,
    case_leave_conversation in Hd.
  repeat match type of Hd with
         | (if String.eqb (Type_ m) ?t then _ else _) = _ =>
             destruct (String.eqb (Type_ m) t)
         end;
    repeat match type of Hd with
           | (if ?b then _ else _) = _ => destruct b
           | match ?x with _ => _ end = _ => destruct x
           end;
    inversion Hd; subst; no_register Hin.
Qed.

(** The auth case, spelled out. *)
Lemma dispatch_auth clientIP now now' m c w :
  Type_ m = "auth"%string ->
  dispatch clientIP now now' m c w
  = let r := RateLimit.CanAuth now now' clientIP (w_limiter w) in
    if fst r then
      match handleAuth (Unmarshal_Auth (Payload m)) (w_db w) with
      | (inl err, d) =>
          (c, {| w_db := d; w_limiter := snd r |},
           [Send (Marshal (auth_error err))])
      | (inr (uid, uname), d) =>
          ({| userID := uid; username := uname |},
           {| w_db := d; w_limiter := snd r |},
           [HubRegister;
            Send (Marshal (auth_success uid uname (getUserConversations uid d)))])
      end
    else
      (c, {| w_db := w_db w; w_limiter := snd r |},
       [Send (Marshal (auth_error
                         "Too many login attempts. Please wait a minute."))]).
Proof.
  intros Hty. unfold dispatch. rewrite Hty. simpl. unfold case_auth.
  destruct (RateLimit.CanAuth now now' clientIP (w_limiter w)) as [ok rl].
  destruct ok; simpl; [|done].
  by destruct (handleAuth (Unmarshal_Auth (Payload m)) (w_db w))
    as [[e|[uid name]] d].
Qed.

(** The rate limiter after one message. *)
Lemma dispatch_limiter clientIP now now' m c w :
  w_limiter (snd (fst (dispatch clientIP now now' m c w)))
  = if String.eqb (Type_ m) "auth"
    then snd (RateLimit.CanAuth now now' clientIP (w_limiter w))
    else w_limiter w.
Proof.
  destruct (String.eqb_spec (Type_ m) "auth") as [Hty|Hty].
  { rewrite (dispatch_auth _ _ _ _ _ _ Hty). cbv zeta.
    destruct (RateLimit.CanAuth now now' clientIP (w_limiter w)) as [[] rl];
      cbn [fst snd]; [|done].
    by destruct (handleAuth (Unmarshal_Auth (Payload m)) (w_db w))
      as [[e|[uid name]] d]. }
  destruct (dispatch clientIP now now' m c w) as [[c' w'] outs] eqn:Hd.
  simpl. unfold dispatch in Hd.
  apply String.eqb_neq in Hty. rewrite Hty in Hd.
  unfold case_typing, case_check_user, case_create_conversation,
    case_get_messages, case_read_receipt, case_send_message,
    case_get_conversations, case_add_participant, case_rename_conversation,
    case_leave_conversation in Hd.
  repeat match type of Hd with
         | (if String.eqb (Type_ m) ?t then _ else _) = _ =>
             destruct (String.eqb (Type_ m) t)
         end;
    repeat match type of Hd with
           | (if ?b then _ else _) = _ => destruct b
           | match ?x with _ => _ end = _ => destruct x
           end;
    by inversion Hd; subst.
Qed.

(** C1. The check_user case has no such guard: on a connection that has not
    authenticated (the client as it is made, user id 0), a check_user
    message queries the users table and enqueues a user_check_result
    response that tells whether the name exists; the message is answered,
    not ignored. *)
Theorem check_user_answered_unauthenticated clientIP now now' payload w :
  let m := {| Type_ := "check_user"; Payload := payload |} in
  let name := Unmarshal_CheckUser payload in
  dispatch clientIP now now' m new_client w
  = (new_client, w,
     [Send (Marshal (user_check_result name
                       (fst (checkUserExists name (w_db w)))))]) /\
  ~ ignored new_client w (dispatch clientIP now now' m new_client w).
Proof.
  intros m name. assert (dispatch clientIP now now' m new_client w
    = (new_client, w,
       [Send (Marshal (user_check_result name
                         (fst (checkUserExists name (w_db w)))))])) as Heq.
  { reflexivity. }
  split; [exact Heq|]. unfold ignored. rewrite Heq. intros Hsame.
  inversion Hsame.
Qed.

End WithStore.

End ConnFacts.

Module HandlerFacts.

Import ClientIP Conn Handler ClientIPFacts ConnFacts.

Section WithLibs.
Context `{NetLib} `{Json} `{Store}.

(** The reader loop checks the auth messages under the key it was given, and
    no other message touches the limiter. *)
Lemma reader_loop_limiter key ms :
  forall c w,
    w_limiter (snd (fst (reader_loop key ms c w)))
    = limited key ms (w_limiter w).
Proof.
  induction ms as [|[[now now'] m] ms IH]; intros c w; [done|].
  cbn [reader_loop limited].
  pose proof (dispatch_limiter key now now' m c w) as Hone.
  destruct (dispatch key now now' m c w) as [[c1 w1] outs1].
  specialize (IH c1 w1).
  destruct (reader_loop key ms c1 w1) as [[c2 w2] outs2].
  simpl in *. by rewrite IH, Hone.
Qed.

(** C10. The key of the rate limiter is the first X-Forwarded-For value as
    it was sent when it is not empty, else the X-Real-IP value when it is not
    empty, else the host of the peer address; so a request that carries a
    non-empty value [v] in one of the two headers is counted under [v],
    whatever its peer address. That one key is used for both limits: the
    admission check and the connection count use it, and on the connection
    that is admitted every auth message is checked by [CanAuth] under it.
    Two requests with the same key are served alike, whatever their peer
    addresses. *)
Theorem GetClientIP_client_chosen :
  (forall r,
      let xff := Header_Get (Header r) "X-Forwarded-For" in
      let xri := Header_Get (Header r) "X-Real-IP" in
      GetClientIP r
      = if decide (xff <> EmptyString) then xff
        else if decide (xri <> EmptyString) then xri
        else fst (fst (SplitHostPort (RemoteAddr r)))) /\
  (forall hdr addr v more,
      v <> EmptyString ->
      hdr !! CanonicalMIMEHeaderKey "X-Forwarded-For" = Some (v :: more) ->
      GetClientIP {| Header := hdr; RemoteAddr := addr |} = v) /\
  (forall hdr addr v more,
      v <> EmptyString ->
      Header_Get hdr "X-Forwarded-For" = EmptyString ->
      hdr !! CanonicalMIMEHeaderKey "X-Real-IP" = Some (v :: more) ->
      GetClientIP {| Header := hdr; RemoteAddr := addr |} = v) /\
  (forall r rl,
      fst (admit_request r true rl)
      = (if fst (RateLimit.CanConnect (GetClientIP r) rl)
         then Accepted (GetClientIP r) else TooManyRequests) /\
      snd (admit_request r true rl)
      = (if fst (RateLimit.CanConnect (GetClientIP r) rl)
         then RateLimit.AddConnection (GetClientIP r) rl else rl)) /\
  (forall r ms w,
      fst (handleWebSocket r true ms w)
      = (if fst (RateLimit.CanConnect (GetClientIP r) (w_limiter w))
         then Accepted (GetClientIP r) else TooManyRequests) /\
      w_limiter (snd (fst (snd (handleWebSocket r true ms w))))
      = (if fst (RateLimit.CanConnect (GetClientIP r) (w_limiter w))
         then limited (GetClientIP r) ms
                (RateLimit.AddConnection (GetClientIP r) (w_limiter w))
         else w_limiter w)) /\
  (forall r now now' m c w,
      Type_ m = "auth"%string ->
      w_limiter (snd (fst (reader_loop (GetClientIP r) [(now, now', m)] c w)))
      = snd (RateLimit.CanAuth now now' (GetClientIP r) (w_limiter w))) /\
  (forall r r' upgraded ms w,
      GetClientIP r = GetClientIP r' ->
      handleWebSocket r upgraded ms w = handleWebSocket r' upgraded ms w).
Proof.
  split; [|split; [|split; [|split; [|split; [|split]]]]].
  - apply GetClientIP_cases.
  - apply GetClientIP_first_forwarded.
  - apply GetClientIP_first_real_ip.
  - apply admit_request_key.
  - intros r ms w. unfold handleWebSocket, RateLimit.CanConnect. simpl.
    destruct (Z.ltb _ _); simpl; [|done].
    split; [done|]. apply reader_loop_limiter.
  - intros r now now' m c w Hty.
    rewrite reader_loop_limiter. simpl. by rewrite Hty.
  - intros r r' upgraded ms w Hkey. unfold handleWebSocket. by rewrite Hkey.
Qed.

End WithLibs.

(** A request that comes from 198.51.100.9 and names two hops of its own
    choosing is counted under the whole header value, and so is the login
    that follows on the connection; nothing is recorded under the address
    of the peer. *)
Lemma GetClientIP_client_chosen_witness :
  let r := {| Header := {[ "X-Forwarded-For"%string
                           := ["203.0.113.7, 10.0.0.1"%string] ]};
              RemoteAddr := "198.51.100.9:51324" |} in
  let rl := w_limiter
              (snd (fst (snd (@handleWebSocket plain_net Auth.sample_json
                                Auth.sample_store r true
                                [(0, 5, {| Type_ := "auth"; Payload := [] |})]
                                Auth.sample_world)))) in
  @GetClientIP plain_net r = "203.0.113.7, 10.0.0.1"%string /\
  RateLimit.attempts rl "203.0.113.7, 10.0.0.1" = [5] /\
  RateLimit.conn_count rl "203.0.113.7, 10.0.0.1" = 1 /\
  RateLimit.attempts rl "198.51.100.9" = [] /\
  RateLimit.conn_count rl "198.51.100.9" = 0.
Proof.
  intros r rl.
  destruct (@GetClientIP_client_chosen plain_net Auth.sample_json
              Auth.sample_store) as (_ & Hxff & _ & _ & Hws & _).
  assert (@GetClientIP plain_net r = "203.0.113.7, 10.0.0.1"%string) as Hkey.
  { apply (Hxff _ _ _ []); [discriminate | reflexivity]. }
  split; [exact Hkey|].
  subst rl.
  rewrite (proj2 (Hws r [(0, 5, {| Type_ := "auth"; Payload := [] |})]
                    Auth.sample_world)).
  rewrite Hkey. vm_compute. done.
Defined.

End HandlerFacts.

Module ReconnectFacts.

Import Reconnect.

(** A run that has ended is not changed by more fuel. *)
Lemma drive_more_fuel dial fuel :
  forall c m t r,
    drive fuel dial c m t = r -> fst (fst r) <> OutOfFuel ->
    forall k, drive (fuel + k) dial c m t = r.
Proof.
  induction fuel as [|fuel IH]; intros c m t r Hrun Hend k.
  - simpl in Hrun. subst r. by destruct Hend.
  - simpl in *. destruct c as [|d ms|url|cn|ty pl|cs]; try done.
    + destruct (Update m ms) as [m' c']. by apply IH.
    + destruct (Update m _) as [m' c']. by apply IH.
Qed.

Lemma enter_more_fuel dial en m fuel r :
  enter fuel dial en m = r -> fst (fst r) <> OutOfFuel ->
  forall k, enter (fuel + k) dial en m = r.
Proof.
  unfold enter. destruct en.
  - apply drive_more_fuel.
  - destruct (Update m _) as [m' c']. apply drive_more_fuel.
Qed.

Lemma enter_enough_fuel dial en m n r fuel :
  enter n dial en m = r -> fst (fst r) <> OutOfFuel ->
  (n <= fuel)%nat -> enter fuel dial en m = r.
Proof.
  intros Hrun Hend Hle. replace fuel with (n + (fuel - n))%nat by lia.
  by apply enter_more_fuel.
Qed.

Ltac run_model m H0 :=
  destruct m as [cn url co rc ld ss pp ui pi aa er cnt];
  simpl in H0; subst cnt;
  destruct ld; destruct ss as [[su sp]|];
  eexists; (split; [vm_compute; reflexivity|]); repeat split.

Lemma enough_fuel dial en m n p t (P : model -> Prop) :
  (exists m', enter n dial en m = (p, m', t) /\ P m') ->
  p <> OutOfFuel ->
  forall fuel, (n <= fuel)%nat ->
    exists m', enter fuel dial en m = (p, m', t) /\ P m'.
Proof.
  intros (m' & Hrun & HP) Hend fuel Hle.
  exists m'. split; [|done].
  by apply (enter_enough_fuel dial en m n).
Qed.

Lemma first_dial_four_failures m fuel :
  reconnectCount m = 0 -> (10 <= fuel)%nat ->
  exists m',
    enter fuel (fails_then_connects 4) FirstDial m
    = (Connected_, m', {| delays := seconds [1; 2; 3; 4]; dials := 5 |}) /\
    reconnected m'.
Proof.
  intros H0. apply enough_fuel; [|done]. unfold reconnected. run_model m H0.
Qed.

Lemma first_dial_only_failures m fuel :
  reconnectCount m = 0 -> (12 <= fuel)%nat ->
  exists m',
    enter fuel always_fails FirstDial m
    = (Stopped, m', {| delays := seconds [1; 2; 3; 4; 5]; dials := 6 |}) /\
    gave_up m'.
Proof.
  intros H0. apply enough_fuel; [|done]. unfold gave_up. run_model m H0.
Qed.

Lemma connection_lost_four_failures m fuel :
  reconnectCount m = 0 -> (11 <= fuel)%nat ->
  exists m',
    enter fuel (fails_then_connects 4) ConnectionLost m
    = (Connected_, m', {| delays := seconds [1; 2; 3; 4; 5]; dials := 5 |}) /\
    reconnected m'.
Proof.
  intros H0. apply enough_fuel; [|done]. unfold reconnected. run_model m H0.
Qed.

Lemma connection_lost_only_failures m fuel :
  reconnectCount m = 0 -> (11 <= fuel)%nat ->
  exists m',
    enter fuel always_fails ConnectionLost m
    = (Stopped, m', {| delays := seconds [1; 2; 3; 4; 5]; dials := 5 |}) /\
    gave_up m'.
Proof.
  intros H0. apply enough_fuel; [|done]. unfold gave_up. run_model m H0.
Qed.

(** C4, as the code has it. From a counter at 0:
    - when the loop is entered by the first dial of the login form, four
      failed dials and then a connection give the delays 1s, 2s, 3s and 4s,
      five dials and a counter back at 0; dials that all fail give the delays
      1s to 5s and a stop, with the error kept, after six dials (the first
      one and five reconnections);
    - when the loop is entered by the loss of a connection, four failed
      dials and then a connection give the delays 1s to 5s (the first one
      before the first dial), five dials and a counter back at 0; dials that
      all fail give the delays 1s to 5s and a stop after exactly five dials.
    Once stopped, no command is left: more fuel changes nothing. *)
Theorem reconnect_behaviour m :
  reconnectCount m = 0 ->
  (forall fuel, (10 <= fuel)%nat ->
     exists m',
       enter fuel (fails_then_connects 4) FirstDial m
       = (Connected_, m', {| delays := seconds [1; 2; 3; 4]; dials := 5 |}) /\
       reconnected m') /\
  (forall fuel, (12 <= fuel)%nat ->
     exists m',
       enter fuel always_fails FirstDial m
       = (Stopped, m', {| delays := seconds [1; 2; 3; 4; 5]; dials := 6 |}) /\
       gave_up m') /\
  (forall fuel, (11 <= fuel)%nat ->
     exists m',
       enter fuel (fails_then_connects 4) ConnectionLost m
       = (Connected_, m', {| delays := seconds [1; 2; 3; 4; 5]; dials := 5 |}) /\
       reconnected m') /\
  (forall fuel, (11 <= fuel)%nat ->
     exists m',
       enter fuel always_fails ConnectionLost m
       = (Stopped, m', {| delays := seconds [1; 2; 3; 4; 5]; dials := 5 |}) /\
       gave_up m').
Proof.
  intros H0. split; [|split; [|split]]; intros fuel Hfuel.
  - by apply first_dial_four_failures.
  - by apply first_dial_only_failures.
  - by apply connection_lost_four_failures.
  - by apply connection_lost_only_failures.
Qed.

Lemma reconnect_behaviour_witness :
  (exists m',
      enter 12 always_fails FirstDial (submitted "ws://chat/ws" "alice" "secret")
      = (Stopped, m', {| delays := seconds [1; 2; 3; 4; 5]; dials := 6 |}) /\
      gave_up m') /\
  (exists m',
      enter 11 (fails_then_connects 4) ConnectionLost
        (online "ws://chat/ws" "alice" "secret")
      = (Connected_, m', {| delays := seconds [1; 2; 3; 4; 5]; dials := 5 |}) /\
      reconnected m').
Proof.
  split.
  - apply (proj1 (proj2 (reconnect_behaviour
                           (submitted "ws://chat/ws" "alice" "secret") eq_refl))
             12%nat).
    lia.
  - apply (proj1 (proj2 (proj2 (reconnect_behaviour
                                  (online "ws://chat/ws" "alice" "secret") eq_refl)))
             11%nat).
    lia.
Defined.

(** The claim as it is written holds for neither entry: after the first dial
    of the login form, dials that all fail are six, not five; after the loss
    of a connection, four failures and a connection take five delays, 1s to
    5s, of which 2s to 5s lie between two dials. *)
Lemma reconnect_not_as_specified :
  ~ as_specified FirstDial (submitted "ws://chat/ws" "alice" "secret") /\
  ~ as_specified ConnectionLost (online "ws://chat/ws" "alice" "secret").
Proof.
  split.
  - intros [_ (fuel & m' & t & Hrun & Hdials)].
    destruct (le_lt_dec 12 fuel) as [Hle|Hlt].
    + destruct (first_dial_only_failures
                  (submitted "ws://chat/ws" "alice" "secret") fuel eq_refl Hle)
        as (m2 & Hrun2 & _).
      rewrite Hrun2 in Hrun. inversion Hrun; subst. simpl in Hdials. lia.
    + do 12 (destruct fuel as [|fuel];
             [vm_compute in Hrun; discriminate Hrun|]).
      lia.
  - intros [(fuel & m' & t & Hrun & _ & Hdelays) _].
    destruct (le_lt_dec 11 fuel) as [Hle|Hlt].
    + destruct (connection_lost_four_failures
                  (online "ws://chat/ws" "alice" "secret") fuel eq_refl Hle)
        as (m2 & Hrun2 & _).
      rewrite Hrun2 in Hrun. inversion Hrun; subst.
      destruct Hdelays as [Hd|Hd]; vm_compute in Hd; discriminate Hd.
    + do 11 (destruct fuel as [|fuel];
             [vm_compute in Hrun; discriminate Hrun|]).
      lia.
Qed.

End ReconnectFacts.

Module SessionFacts.

Import Session.

Section WithLib.
Context `{GoLib}.

Lemma slice_at_nonce data :
  (NonceSize <= length data)%nat ->
  slice_at NonceSize data = Value (firstn NonceSize data, skipn NonceSize data).
Proof.
  intros Hlen. unfold slice_at.
  destruct (Nat.leb_spec NonceSize (length data)); [done | lia].
Qed.

Lemma gcm_Open_nonce key data :
  (NonceSize <= length data)%nat ->
  gcm_Open key (firstn NonceSize data) (skipn NonceSize data)
  = match gcm_open key (firstn NonceSize data) (skipn NonceSize data) with
    | Some d => Value d
    | None => Error "cipher: message authentication failed"
    end.
Proof.
  intros Hlen. unfold gcm_Open.
  rewrite length_take, Nat.min_l by done. by rewrite Nat.eqb_refl.
Qed.

(** [decrypt] after the decoding, for a key that [aes.NewCipher] takes. *)
Lemma decrypt_decoded encoded env raw :
  base64_DecodeString encoded = Some raw ->
  aes_NewCipher (getEncryptionKey env) = Value (getEncryptionKey env) ->
  decrypt encoded env
  = if Nat.ltb (length raw) NonceSize then Error "ciphertext too short"
    else match gcm_open (getEncryptionKey env)
                 (firstn NonceSize raw) (skipn NonceSize raw) with
         | Some d => Value d
         | None => Error "cipher: message authentication failed"
         end.
Proof.
  intros Hdec Hkey. unfold decrypt. rewrite Hdec, Hkey. simpl.
  destruct (Nat.ltb_spec (length raw) NonceSize); [done|].
  rewrite slice_at_nonce by done. simpl. by apply gcm_Open_nonce.
Qed.

Lemma aes_NewCipher_cases key :
  aes_NewCipher key = Value key \/
  aes_NewCipher key = Error "crypto/aes: invalid key size".
Proof. unfold aes_NewCipher. destruct (_ || _); auto. Qed.

Lemma decrypt_no_crash encoded env w : decrypt encoded env <> Crash w.
Proof.
  destruct (base64_DecodeString encoded) as [raw|] eqn:Hdec.
  - destruct (aes_NewCipher_cases (getEncryptionKey env)) as [Hkey|Hkey].
    + rewrite (decrypt_decoded encoded env raw Hdec Hkey).
      destruct (Nat.ltb _ _); [done|]. by destruct (gcm_open _ _ _).
    + unfold decrypt. by rewrite Hdec, Hkey.
  - unfold decrypt. by rewrite Hdec.
Qed.

Lemma read_nonce_cases env :
  (exists nonce, read_nonce env = Value nonce /\ entropy env = Some nonce /\
                 length nonce = NonceSize) \/
  (exists e, read_nonce env = Error e).
Proof.
  unfold read_nonce. destruct (entropy env) as [n|]; [|right; by eexists].
  destruct (Nat.eqb_spec (length n) NonceSize); [left | right]; by eexists.
Qed.

Lemma encrypt_no_crash data env w : encrypt data env <> Crash w.
Proof.
  unfold encrypt.
  destruct (aes_NewCipher_cases (getEncryptionKey env)) as [-> | ->]; [|done].
  simpl.
  destruct (read_nonce_cases env) as [(nonce & -> & _ & Hlen)|(e & ->)]; [|done].
  simpl. unfold gcm_Seal. rewrite Hlen, Nat.eqb_refl. done.
Qed.

Lemma Save_no_crash profileName url user pass env w :
  fst (Save profileName url user pass env) <> Crash w.
Proof.
  unfold Save. destruct (String.eqb _ _); [done|].
  destruct (negb _); [done|].
  destruct (encrypt _ env) as [c|e|w'] eqn:Henc.
  - by destruct (write_ok env).
  - done.
  - by destruct (encrypt_no_crash _ _ _ Henc).
Qed.

Lemma Load_no_crash profileName env w : fst (Load profileName env) <> Crash w.
Proof.
  unfold Load. destruct (String.eqb _ _); [done|].
  destruct (files env !! _) as [data|]; [|done].
  destruct (decrypt data env) as [d|e|w'] eqn:Hdec.
  - by destruct (json_Unmarshal d).
  - destruct (json_Unmarshal data) as [s|]; [|done].
    pose proof (Save_no_crash profileName (ServerURL s) (Username s)
                  (Password s) env) as Hsave.
    destruct (Save _ _ _ _ env) as [[[]|e'|w'] env']; simpl in *; try done.
    by destruct (Hsave w').
  - by destruct (decrypt_no_crash _ _ _ Hdec).
Qed.

Context `{!GoLibLaws}.

Lemma key_accepted env :
  aes_NewCipher (getEncryptionKey env) = Value (getEncryptionKey env).
Proof.
  unfold aes_NewCipher, getEncryptionKey. by rewrite sha256_length.
Qed.

Lemma encrypt_value data env nonce :
  entropy env = Some nonce -> length nonce = NonceSize ->
  encrypt data env
  = Value (base64_EncodeToString
             (nonce ++ gcm_seal (getEncryptionKey env) nonce data)).
Proof.
  intros Hent Hlen. unfold encrypt. rewrite key_accepted. simpl.
  unfold read_nonce. rewrite Hent, Hlen, Nat.eqb_refl. simpl.
  unfold gcm_Seal. by rewrite Hlen, Nat.eqb_refl.
Qed.

Lemma decrypt_sealed data env nonce :
  length nonce = NonceSize ->
  decrypt (base64_EncodeToString
             (nonce ++ gcm_seal (getEncryptionKey env) nonce data)) env
  = Value data.
Proof.
  intros Hlen.
  rewrite (decrypt_decoded _ env _ (base64_decode_encode _) (key_accepted env)).
  rewrite length_app, Hlen.
  destruct (Nat.ltb_spec (NonceSize + length (gcm_seal (getEncryptionKey env)
                                                nonce data)) NonceSize); [lia|].
  rewrite take_app_length', drop_app_length' by done.
  rewrite gcm_open_seal; [done| |done].
  unfold getEncryptionKey. apply sha256_length.
Qed.



Section Authentic.
Context `{!GcmAuthentic}.



End Authentic.

(** [Save] on a machine where the directory can be made, a nonce drawn and
    the file written. *)
Lemma Save_writes profileName url user pass env nonce :
  GetConfigDir profileName env <> EmptyString ->
  mkdir_ok env = true -> write_ok env = true ->
  entropy env = Some nonce -> length nonce = NonceSize ->
  exists c,
    encrypt (json_Marshal {| ServerURL := url; Username := user;
                             Password := pass |}) env = Value c /\
    Save profileName url user pass env
    = (Value tt,
       leaves env (<[session_path (GetConfigDir profileName env) := c]> (files env))
         (dirs env ∪ mkdir_makes env)).
Proof.
  intros Hdir Hmk Hwr Hent Hlen. eexists.
  split; [by apply encrypt_value|].
  unfold Save. apply String.eqb_neq in Hdir. rewrite Hdir, Hmk. simpl.
  rewrite (encrypt_value _ env nonce Hent Hlen). by rewrite Hwr.
Qed.

(** C8. [Load] returns nil, and changes nothing, when there is no
    configuration directory, when the file cannot be read, when the file
    decrypts to something that is not a session, and when it neither decrypts
    nor parses; when the file does not decrypt but parses as a session, [Load]
    calls [Save] on that session and returns it; that [Save], where the
    directory can be made, a nonce drawn and the file written, leaves in the
    file a text that decrypts to the marshalled session; and [Load] never
    panics. *)
Theorem Load_legacy_fallback profileName env :
  let dir := GetConfigDir profileName env in
  let path := session_path dir in
  (dir = EmptyString -> Load profileName env = (Value None, env)) /\
  (dir <> EmptyString -> files env !! path = None ->
   Load profileName env = (Value None, env)) /\
  (forall data,
      dir <> EmptyString -> files env !! path = Some data ->
      match decrypt data env with
      | Value d => Load profileName env = (Value (json_Unmarshal d), env)
      | Error _ =>
          match json_Unmarshal data with
          | Some s =>
              Load profileName env
              = (Value (Some s),
                 snd (Save profileName (ServerURL s) (Username s) (Password s) env))
          | None => Load profileName env = (Value None, env)
          end
      | Crash _ => False
      end) /\
  (forall s nonce,
      dir <> EmptyString -> mkdir_ok env = true -> write_ok env = true ->
      entropy env = Some nonce -> length nonce = NonceSize ->
      exists c,
        files (snd (Save profileName (ServerURL s) (Username s) (Password s) env))
          !! path = Some c /\
        forall env', getEncryptionKey env' = getEncryptionKey env ->
                     decrypt c env' = Value (json_Marshal s)) /\
  (forall w, fst (Load profileName env) <> Crash w).
Proof.
  intros dir path. subst dir path.
  split; [|split; [|split; [|split]]].
  - intros Hdir. unfold Load. by rewrite Hdir.
  - intros Hdir Hfile. unfold Load. apply String.eqb_neq in Hdir.
    by rewrite Hdir, Hfile.
  - intros data Hdir Hfile. unfold Load. apply String.eqb_neq in Hdir.
    rewrite Hdir, Hfile.
    destruct (decrypt data env) as [d|e|w] eqn:Hdec.
    + by destruct (json_Unmarshal d).
    + destruct (json_Unmarshal data) as [s|]; [|done].
      pose proof (Save_no_crash profileName (ServerURL s) (Username s)
                    (Password s) env) as Hsave.
      destruct (Save _ _ _ _ env) as [[[]|e'|w'] env']; simpl in *; try done.
      by destruct (Hsave w').
    + by destruct (decrypt_no_crash _ _ _ Hdec).
  - intros s nonce Hdir Hmk Hwr Hent Hlen.
    destruct (Save_writes profileName (ServerURL s) (Username s) (Password s)
                env nonce Hdir Hmk Hwr Hent Hlen) as (c & Henc & ->).
    exists c. simpl. split; [apply lookup_insert_eq|].
    intros env' Hkey.
    replace {| ServerURL := ServerURL s; Username := Username s;
               Password := Password s |} with s in Henc by (by destruct s).
    rewrite (encrypt_value _ env nonce Hent Hlen) in Henc.
    inversion Henc; subst. rewrite <- Hkey. by apply decrypt_sealed.
  - apply Load_no_crash.
Qed.

End WithLib.

(** *** The small library has the laws *)

Lemma bytes_eqb_refl b : bytes_eqb b b = true.
Proof.
  induction b as [|x b IH]; simpl; [done|].
  by rewrite (@Byte.byte_dec_lb x x eq_refl), IH.
Qed.

Lemma sample_tag_length key nonce : length (sample_tag key nonce) = 16%nat.
Proof.
  unfold sample_tag. rewrite length_take, !length_app, repeat_length. lia.
Qed.

Lemma sample_laws : @GoLibLaws sample_lib.
Proof.
  split.
  - intros b.
    change (length (firstn 32 (b ++ repeat Byte.x00 32)) = 32%nat).
    rewrite length_take, length_app, repeat_length. lia.
  - intros key nonce data _ _. cbn [gcm_open gcm_seal sample_lib].
    rewrite length_app, sample_tag_length.
    replace (length data + 16 - 16)%nat with (length data) by lia.
    rewrite drop_app_length, take_app_length, bytes_eqb_refl.
    destruct (Nat.leb_spec 16 (length data + 16)); [done | lia].
  - intros b. reflexivity.
Qed.





Lemma Load_legacy_fallback_witness :
  @Load sample_lib "default" legacy_machine
  = (Value (Some sample_session),
     snd (@Save sample_lib "default" "ws://chat/ws" "alice" "secret"
            legacy_machine)) /\
  exists c,
    files (snd (@Save sample_lib "default" "ws://chat/ws" "alice" "secret"
                  legacy_machine))
      !! "/home/alice/.config/cldzmsg/default/session.json"%string = Some c /\
    @decrypt sample_lib c legacy_machine
    = Value (@json_Marshal sample_lib sample_session).
Proof.
  destruct (@Load_legacy_fallback sample_lib sample_laws "default" legacy_machine)
    as (_ & _ & Hfile & Hsave & _).
  split.
  - specialize (Hfile (@json_Marshal sample_lib sample_session)).
    assert (@GetConfigDir sample_lib "default" legacy_machine <> EmptyString)
      as Hdir by (vm_compute; discriminate).
    specialize (Hfile Hdir eq_refl).
    vm_compute in Hfile. vm_compute. exact Hfile.
  - destruct (Hsave sample_session (repeat Byte.x2a 12)) as (c & Hc & Hdec);
      try reflexivity.
    { vm_compute; discriminate. }
    exists c. split; [exact Hc|]. by apply Hdec.
Defined.

End SessionFacts.

(** * Further properties *)

Module RateLimitMore.

Import RateLimit RateLimitFacts.

Lemma conn_count_remove_other ip ip' rl :
  ip <> ip' -> conn_count (RemoveConnection ip rl) ip' = conn_count rl ip'.
Proof.
  intros Hne. unfold conn_count, RemoveConnection; simpl.
  destruct (Z.leb _ 0).
  - by rewrite lookup_delete_ne, lookup_insert_ne.
  - by rewrite lookup_insert_ne.
Qed.

(** X1. A release undoes an admit: from a count that is not negative (and
    below the largest int), the count of the address is back to what it was,
    and an address that is back at zero has no entry left in the map; the
    counts of the other addresses are not touched by either call. A release
    never leaves a negative count, even without an admit before it. *)
Theorem release_undoes_admit ip rl :
  0 <= conn_count rl ip < 2 ^ 63 - 1 ->
  conn_count (RemoveConnection ip (AddConnection ip rl)) ip = conn_count rl ip /\
  (conn_count rl ip = 0 ->
   connections (RemoveConnection ip (AddConnection ip rl)) !! ip = None) /\
  (forall ip', ip <> ip' ->
     conn_count (RemoveConnection ip (AddConnection ip rl)) ip'
     = conn_count rl ip') /\
  0 <= conn_count (RemoveConnection ip rl) ip.
Proof.
  intros Hc. split; [|split; [|split]].
  - rewrite conn_count_remove, conn_count_add.
    rewrite (wrap64_small (conn_count rl ip + 1)) by lia.
    rewrite wrap64_small by lia. lia.
  - intros H0. unfold RemoveConnection; simpl.
    rewrite conn_count_add, H0. simpl. apply lookup_delete_eq.
  - intros ip' Hne.
    rewrite conn_count_remove_other, conn_count_add_other by done. done.
  - apply conn_count_remove_nonneg.
Qed.

Lemma release_undoes_admit_witness :
  let rl := AddConnection "10.0.0.1" (New None None) in
  conn_count (RemoveConnection "10.0.0.1" (AddConnection "10.0.0.1" rl)) "10.0.0.1"
  = 1.
Proof.
  intros rl.
  rewrite (proj1 (release_undoes_admit "10.0.0.1" rl ltac:(vm_compute; split; congruence))).
  reflexivity.
Defined.

(** X2. The sweep keeps, for every address, exactly the attempts of the
    last minute, leaves no address with an empty record and does not touch
    the connection counts; and it is only a clean-up: an attempt made at or
    after the sweep gets the same answer, and leaves the same record for its
    address, as if the sweep had not run. *)
Theorem cleanup_is_advisory t now now' ip rl :
  t <= now ->
  (forall a, attempts (cleanup t rl) a = recent_of t (attempts rl a)) /\
  (forall a l, authAttempts (cleanup t rl) !! a = Some l -> l <> []) /\
  connections (cleanup t rl) = connections rl /\
  fst (CanAuth now now' ip (cleanup t rl)) = fst (CanAuth now now' ip rl) /\
  attempts (snd (CanAuth now now' ip (cleanup t rl))) ip
  = attempts (snd (CanAuth now now' ip rl)) ip.
Proof.
  intros Ht.
  assert (recent_of now (attempts (cleanup t rl) ip)
          = recent_of now (attempts rl ip)) as Hsame.
  { rewrite attempts_cleanup. unfold recent_of.
    apply filter_filter_stronger. intros x. unfold after.
    rewrite !Z.ltb_lt. lia. }
  split; [|split; [|split; [|split]]].
  - intros a. apply attempts_cleanup.
  - intros a l Hl. unfold cleanup in Hl; simpl in Hl.
    rewrite lookup_omap in Hl.
    destruct (authAttempts rl !! a) as [l0|]; simpl in Hl; [|done].
    destruct (recent_of t l0); [done|]. by inversion Hl.
  - reflexivity.
  - rewrite !fst_CanAuth, Hsame. reflexivity.
  - rewrite !attempts_CanAuth, !fst_CanAuth, Hsame. reflexivity.
Qed.

Lemma cleanup_is_advisory_witness :
  let rl := snd (CanAuth 0 0 "10.0.0.1" (New None None)) in
  fst (CanAuth (61 * 1000000000) (61 * 1000000000) "10.0.0.1"
         (cleanup (60 * 1000000000) rl))
  = fst (CanAuth (61 * 1000000000) (61 * 1000000000) "10.0.0.1" rl) /\
  authAttempts (cleanup (60 * 1000000000) rl) !! "10.0.0.1"%string = None.
Proof.
  intros rl. split.
  - apply (cleanup_is_advisory (60 * 1000000000) (61 * 1000000000)
             (61 * 1000000000) "10.0.0.1" rl). lia.
  - vm_compute. reflexivity.
Defined.

(** X3. The budget is per address: the attempts granted to an address are
    the same as if the attempts of all the other addresses had never been
    made. *)
Theorem budget_per_address ip cs rl :
  granted ip cs rl = granted ip (calls_on ip cs) rl.
Proof.
  enough (forall rl1 rl2,
             attempts rl1 ip = attempts rl2 ip -> maxAuth rl1 = maxAuth rl2 ->
             granted ip cs rl1 = granted ip (calls_on ip cs) rl2) as Hgen.
  { by apply Hgen. }
  induction cs as [|c cs IH]; intros rl1 rl2 Hatt Hmax; [done|].
  destruct c as [now now' a|now]; simpl.
  - destruct (decide (a = ip)) as [->|Hne].
    + rewrite bool_decide_eq_true_2 by done. simpl.
      rewrite bool_decide_eq_true_2 by done.
      rewrite !fst_CanAuth, Hatt, Hmax. f_equal.
      apply IH.
      * rewrite !attempts_CanAuth, !fst_CanAuth, Hatt, Hmax. done.
      * by rewrite !maxAuth_CanAuth.
    + rewrite bool_decide_eq_false_2 by done. rewrite andb_false_r. simpl.
      apply IH.
      * by rewrite attempts_CanAuth_other.
      * by rewrite maxAuth_CanAuth.
  - apply IH; [|done]. by rewrite !attempts_cleanup, Hatt.
Qed.

End RateLimitMore.

Module ClientIPMore.

Import ClientIP ClientIPFacts.

(** X4. The connection ceiling is checked under the forwarded name only: a
    request that carries a non-empty X-Forwarded-For value [v] is accepted
    as soon as [v] itself is below the ceiling, however many connections its
    peer address has open, and it is counted under [v] alone. *)
Theorem forwarded_name_is_all_that_counts `{NetLib} hdr addr v more rl :
  v <> EmptyString ->
  hdr !! CanonicalMIMEHeaderKey "X-Forwarded-For" = Some (v :: more) ->
  RateLimit.conn_count rl v < RateLimit.maxConns rl ->
  admit_request {| Header := hdr; RemoteAddr := addr |} true rl
  = (Accepted v, RateLimit.AddConnection v rl) /\
  forall peer, v <> peer ->
    RateLimit.conn_count
      (snd (admit_request {| Header := hdr; RemoteAddr := addr |} true rl)) peer
    = RateLimit.conn_count rl peer.
Proof.
  intros Hv Hlook Hroom.
  assert (GetClientIP {| Header := hdr; RemoteAddr := addr |} = v) as Hkey.
  { rewrite GetClientIP_forwarded; simpl; unfold Header_Get; by rewrite Hlook. }
  assert (admit_request {| Header := hdr; RemoteAddr := addr |} true rl
          = (Accepted v, RateLimit.AddConnection v rl)) as Heq.
  { unfold admit_request, RateLimit.CanConnect. rewrite Hkey.
    apply Z.ltb_lt in Hroom. by rewrite Hroom. }
  split; [exact Heq|]. intros peer Hne. rewrite Heq. simpl.
  by apply RateLimitFacts.conn_count_add_other.
Qed.

(** The peer 198.51.100.9 already has the ten connections it may have; the
    same peer is accepted again under a name of its choosing. *)
Lemma forwarded_name_is_all_that_counts_witness :
  let full := Nat.iter 10 (RateLimit.AddConnection "198.51.100.9")
                (RateLimit.New None None) in
  fst (@admit_request plain_net
         {| Header := ∅; RemoteAddr := "198.51.100.9:51324" |} true full)
  = TooManyRequests /\
  fst (@admit_request plain_net
         {| Header := {[ "X-Forwarded-For"%string := ["anything"%string] ]};
            RemoteAddr := "198.51.100.9:51324" |} true full)
  = Accepted "anything".
Proof.
  intros full. split; [vm_compute; reflexivity|].
  rewrite (proj1 (@forwarded_name_is_all_that_counts plain_net
                    {[ "X-Forwarded-For"%string := ["anything"%string] ]}
                    "198.51.100.9:51324" "anything" [] full
                    ltac:(discriminate) eq_refl ltac:(vm_compute; reflexivity))).
  reflexivity.
Defined.

End ClientIPMore.

Module HubMore.

Import Hub HubFacts.

(** A registered client with a closed channel makes the broadcast loop
    panic, wherever it comes in the order. *)
Lemma broadcast_over_closed message order :
  forall h c b ch,
    c ∈ order -> clients h !! c = Some b ->
    chans h !! c = Some ch -> closed ch = true ->
    exists why, broadcast_over order message h = Panic why.
Proof.
  induction order as [|c0 order IH]; intros h c b ch Hin Hc Hch Hcl.
  - by apply elem_of_nil in Hin.
  - simpl. destruct (decide (c0 = c)) as [->|Hne].
    + unfold broadcast_one. rewrite Hc, Hch, Hcl. simpl. by eexists.
    + apply elem_of_cons in Hin as [->|Hin]; [done|].
      destruct (broadcast_one message h c0) as [h1|why] eqn:Hone;
        [|by eexists].
      simpl.
      destruct (broadcast_one_other message h c0 h1 c Hone Hne) as [Hc1 Hch1].
      apply (IH h1 c b ch); [done| congruence | congruence | done].
Qed.

(** X5. The hub does not survive a client that comes back: when a
    registered client whose queue is full is dropped by a broadcast and is
    then registered again (its channel is closed by then), the next
    broadcast that reaches it panics on the send, and so does its
    unregistration on the close. *)
Theorem dropped_client_back_panics message order message' order' h c ch :
  open_registry h -> iteration_order order h ->
  registered c h -> chans h !! c = Some ch ->
  (capacity <= length (buf ch))%nat ->
  c ∈ order' ->
  (exists why,
      run [Broadcast message order; Register c; Broadcast message' order'] h
      = Panic why) /\
  run [Broadcast message order; Register c; Unregister c] h
  = Panic "close of closed channel".
Proof.
  intros Hopen [Hnd Horder] Hreg Hch Hfull Hin'.
  destruct (broadcast_over_pass message order h Hnd) as (h1 & Hrun & _ & Hin).
  { intros c0 Hc0. apply Horder in Hc0. split; [done|]. by apply Hopen. }
  assert (c ∈ order) as Hc by (by apply Horder).
  specialize (Hin c ch Hc Hch).
  destruct (Nat.ltb_spec (length (buf ch)) capacity) as [Hlt|_]; [lia|].
  destruct Hin as [_ Hch1].
  split.
  - destruct (broadcast_over_closed message' order'
                {| clients := <[c := true]> (clients h1); chans := chans h1 |}
                c true (shut ch)) as [why Hpanic]; try done.
    { simpl. apply lookup_insert_eq. }
    exists why. simpl. rewrite Hrun. simpl. by rewrite Hpanic.
  - simpl. rewrite Hrun. simpl. unfold unregister; simpl.
    rewrite lookup_insert_eq, Hch1. reflexivity.
Qed.

Lemma dropped_client_back_panics_witness :
  exists why,
    run [Broadcast [Byte.x68] [2%nat; 1%nat]; Register 2%nat;
         Broadcast [Byte.x69] [1%nat; 2%nat]] two_clients
    = Panic why.
Proof.
  apply (proj1 (dropped_client_back_panics [Byte.x68] [2%nat; 1%nat]
                  [Byte.x69] [1%nat; 2%nat] two_clients 2%nat
                  {| buf := repeat [] capacity; closed := false |}
                  two_clients_open two_clients_order
                  ltac:(unfold registered, two_clients; simpl;
                        rewrite lookup_insert_ne by done;
                        rewrite lookup_insert_eq; by eexists)
                  ltac:(unfold two_clients; simpl;
                        rewrite lookup_insert_ne by done;
                        apply lookup_insert_eq)
                  ltac:(cbn [buf]; rewrite repeat_length; done)
                  ltac:(do 2 constructor))).
Defined.



End HubMore.

Module PumpMore.

Import Hub Pump HubFacts PumpFacts.

Lemma start_closed_by_writer me h : closed_by_writer (start me h).
Proof. by split. Qed.

(** X7. Along every run of a connection the transport is closed at most
    once, and only by the writer goroutine when it returns; the connection
    count of the address is released at that moment and at no other. *)
Theorem transport_closed_at_most_once me h evs s :
  exec me evs (start me h) = Some (Ok s) ->
  (conn_closes s <= 1)%nat /\ released s = conn_closes s /\
  (conn_closes s = 1%nat <-> writer s = Exited).
Proof.
  intros Hrun.
  pose proof (exec_closed_by_writer me evs (start me h) s
                (start_closed_by_writer me h) Hrun) as Hinv.
  unfold closed_by_writer in Hinv.
  destruct (writer s); destruct Hinv as [Hc Hr]; rewrite Hc, Hr.
  - split; [lia|]. split; [done|]. split; [lia | done].
  - split; [lia|]. split; [done|]. split; done.
Qed.

Lemma transport_closed_at_most_once_witness :
  match exec 1%nat [AuthSuccess 7; ReaderSend [Byte.x68]; WriteError; ReadError]
          (start 1%nat newHub) with
  | Some (Ok s) => conn_closes s = 1%nat /\ released s = 1%nat
  | _ => False
  end.
Proof.
  destruct (exec 1%nat [AuthSuccess 7; ReaderSend [Byte.x68]; WriteError; ReadError]
              (start 1%nat newHub)) as [[s|]|] eqn:Hrun.
  - destruct (transport_closed_at_most_once 1%nat newHub _ s Hrun)
      as (_ & Hrel & Hiff).
    assert (writer s = Exited) as Hw.
    { vm_compute in Hrun. by inversion Hrun. }
    apply Hiff in Hw. by rewrite Hrel.
  - vm_compute in Hrun. discriminate Hrun.
  - vm_compute in Hrun. discriminate Hrun.
Defined.




Lemma exec_app me l1 :
  forall l2 s s1,
    exec me l1 s = Some (Ok s1) -> exec me (l1 ++ l2) s = exec me l2 s1.
Proof.
  induction l1 as [|e l1 IH]; intros l2 s s1 Hrun; simpl in *.
  - by inversion Hrun.
  - destruct (step me e s) as [[s0|]|]; [|done|done]. by apply IH.
Qed.

(** X22. A connection is in the registry only with a user id: along every
    run of a connection, as long as the ids the store hands out are not 0,
    a client that is registered has a user id other than 0; before its
    first successful authentication a connection is therefore in no
    registry. *)
Theorem registered_only_with_user_id me h evs s :
  ids_nonzero evs ->
  exec me evs (start me h) = Some (Ok s) ->
  (registered me (hub s) -> userID s <> 0) /\
  (userID s = 0 -> ~ registered me (hub s)).
Proof.
  intros Hids Hrun.
  pose proof (exec_registered_ok me evs (start me h) s Hids
                (start_registered_ok me h) Hrun) as Hinv.
  split; [exact Hinv|]. intros Hz Hreg. by apply Hinv.
Qed.

Lemma registered_only_with_user_id_witness :
  match exec 1%nat [ReaderSend [Byte.x68]; AuthSuccess 7] (start 1%nat newHub) with
  | Some (Ok s) => registered 1%nat (hub s) /\ userID s <> 0
  | _ => False
  end.
Proof.
  destruct (exec 1%nat [ReaderSend [Byte.x68]; AuthSuccess 7] (start 1%nat newHub))
    as [[s|]|] eqn:Hrun; [|vm_compute in Hrun; discriminate Hrun ..].
  assert (registered 1%nat (hub s)) as Hreg.
  { vm_compute in Hrun. inversion Hrun; subst s. unfold registered.
    vm_compute. by eexists. }
  split; [exact Hreg|].
  apply (proj1 (registered_only_with_user_id 1%nat newHub
                  [ReaderSend [Byte.x68]; AuthSuccess 7] s
                  ltac:(intros uid Hin;
                        apply elem_of_cons in Hin as [Hin|Hin]; [done|];
                        apply list_elem_of_singleton in Hin;
                        inversion Hin; done)
                  Hrun)).
  exact Hreg.
Defined.

End PumpMore.

Module AuthFacts.

Import Conn Auth.


Lemma by_username_Some name t u :
  by_username name t = Some u ->
  In u (rows t) /\ Username u = name /\ sendable name = true.
Proof.
  unfold by_username. destruct (sendable name); [|done].
  intros Hf. apply List.find_some in Hf as [Hin Heq].
  split; [done|]. split; [|done]. by apply String.eqb_eq.
Qed.



Lemma name_taken name t :
  existsb (fun u => String.eqb (Username u) name) (rows t) = true
  <-> In name (List.map Username (rows t)).
Proof.
  rewrite existsb_exists, in_map_iff. split.
  - intros (u & Hin & Heq). apply String.eqb_eq in Heq. by exists u.
  - intros (u & Heq & Hin). exists u. split; [done|]. by apply String.eqb_eq.
Qed.

Lemma id_fresh t :
  users_ok t -> existsb (fun u => Z.eqb (ID u) (next_id t)) (rows t) = false.
Proof.
  intros (_ & Hids & _). apply not_true_is_false. intros Hex.
  apply existsb_exists in Hex as (u & Hin & Heq). apply Z.eqb_eq in Heq.
  specialize (Hids u Hin). lia.
Qed.



Lemma users_ok_insert name hash t :
  users_ok t -> ~ In name (List.map Username (rows t)) ->
  users_ok {| rows := rows t ++ [{| ID := next_id t; Username := name;
                                    PasswordHash := hash |}];
              next_id := next_id t + 1 |}.
Proof.
  intros (Hnext & Hids & Hnd & Hnames) Hfree. unfold users_ok; simpl.
  split; [lia|]. split; [|split].
  - intros u Hin. apply in_app_or in Hin as [Hin|[<-|[]]]; simpl.
    + specialize (Hids u Hin). lia.
    + lia.
  - rewrite List.map_app. simpl. apply NoDup_app. split; [done|]. split.
    + intros id Hin Hin'. apply list_elem_of_singleton in Hin' as ->.
      apply list_elem_of_In, in_map_iff in Hin as (u & Hu & Hin).
      specialize (Hids u Hin). lia.
    + apply NoDup_singleton.
  - rewrite List.map_app. simpl. apply NoDup_app. split; [done|]. split.
    + intros n Hin Hin'. apply list_elem_of_singleton in Hin' as ->.
      by apply list_elem_of_In in Hin.
    + apply NoDup_singleton.
Qed.

Lemma users_ok_drawn t :
  users_ok t -> users_ok {| rows := rows t; next_id := next_id t + 1 |}.
Proof.
  intros (Hnext & Hids & Hnd & Hnames). unfold users_ok; simpl.
  split; [lia|]. split; [|done].
  intros u Hin. specialize (Hids u Hin). lia.
Qed.

(** What an insert does in each case. *)
Lemma insert_user_cases name hash t :
  users_ok t ->
  (exists e, insert_user name hash t = (inl e, t)) \/
  (exists e, insert_user name hash t
             = (inl e, {| rows := rows t; next_id := next_id t + 1 |})) \/
  (~ In name (List.map Username (rows t)) /\
   insert_user name hash t
   = (inr (next_id t),
      {| rows := rows t ++ [{| ID := next_id t; Username := name;
                               PasswordHash := hash |}];
         next_id := next_id t + 1 |})).
Proof.
  intros Hok. unfold insert_user.
  destruct (sendable name); simpl; [|left; by eexists].
  destruct (Z.ltb serial_max (next_id t)); [left; by eexists|].
  rewrite (id_fresh t Hok).
  destruct (existsb _ (rows t)) eqn:Hex; [right; left; by eexists|].
  right; right. split; [|done].
  intros Hin. apply name_taken in Hin. congruence.
Qed.

Ltac failed_auth :=
  simpl; split; [assumption|]; split; [done|];
  split; [intros ? ? Heq; discriminate Heq | done].

Section WithBcrypt.
Context `{Bcrypt}.

(** X9. [handleAuth] keeps the users table in order: ids from 1 up to the
    sequence, no id and no name twice. When it fails, the rows are the ones
    there were; when it succeeds, the user id it returns is at least 1, the
    name is the one that was sent, and a row of the table has that id and
    that name. A login never changes the table. *)
Theorem handleAuth_keeps_the_table salt payload t :
  users_ok t ->
  users_ok (snd (handleAuth salt payload t)) /\
  (forall e, fst (handleAuth salt payload t) = inl e ->
             rows (snd (handleAuth salt payload t)) = rows t) /\
  (forall uid name,
      fst (handleAuth salt payload t) = inr (uid, name) ->
      1 <= uid /\ name = auth_Username payload /\
      exists u, In u (rows (snd (handleAuth salt payload t))) /\
                ID u = uid /\ Username u = name) /\
  (auth_Action payload <> "register"%string ->
   snd (handleAuth salt payload t) = t).
Proof.
  intros Hok. unfold handleAuth.
  destruct (String.eqb_spec (auth_Action payload) "register") as [Hreg|Hlog].
  - destruct (GenerateFromPassword salt (auth_Password payload)) as [e|hash].
    { by failed_auth. }
    destruct (insert_user_cases (auth_Username payload) hash t Hok)
      as [(e & ->)|[(e & ->)|(Hfree & ->)]]; simpl.
    + by failed_auth.
    + split; [by apply users_ok_drawn|].
      split; [done|]. split; [intros ? ? Heq; discriminate Heq|done].
    + split; [by apply users_ok_insert|]. split; [done|]. split; [|done].
      intros uid name Heq. inversion Heq; subst.
      destruct Hok as (Hnext & _). split; [lia|]. split; [done|].
      eexists. split; [apply in_or_app; right; by left|]. done.
  - destruct (by_username (auth_Username payload) t) as [u|] eqn:Hu.
    + destruct (CompareHashAndPassword _ _); simpl.
      * by failed_auth.
      * split; [done|]. split; [done|]. split; [|done].
        intros uid name Heq. inversion Heq; subst.
        apply by_username_Some in Hu as (Hin & Hname & _).
        destruct Hok as (_ & Hids & _). specialize (Hids u Hin).
        split; [lia|]. split; [done|]. by exists u.
    + by failed_auth.
Qed.

(** X10. A name that is taken cannot be registered again: the call fails on
    the unique constraint, every row stays, and the id that was drawn for
    the refused row is not handed out again. *)
Theorem taken_name_is_refused salt name password t u hash :
  users_ok t -> by_username name t = Some u ->
  next_id t <= serial_max ->
  GenerateFromPassword salt password = inr hash ->
  handleAuth salt (register_as name password) t
  = (inl "duplicate key value violates unique constraint users_username_key"%string,
     {| rows := rows t; next_id := next_id t + 1 |}).
Proof.
  intros Hok Hu Hmax Hgen. unfold handleAuth, register_as; simpl.
  rewrite Hgen. unfold insert_user.
  apply by_username_Some in Hu as (Hin & Hname & ->). simpl.
  destruct (Z.ltb_spec serial_max (next_id t)); [lia|].
  rewrite (id_fresh t Hok).
  assert (existsb (fun u0 => String.eqb (Username u0) name) (rows t) = true)
    as ->; [|done].
  apply name_taken, in_map_iff. by exists u.
Qed.

Context `{!BcryptLaws}.


End WithBcrypt.


Lemma no_users_ok : users_ok no_users.
Proof.
  unfold users_ok, no_users; simpl. split; [lia|]. split; [by intros u []|].
  split; apply NoDup_nil_2.
Qed.

Lemma handleAuth_keeps_the_table_witness :
  users_ok (snd (@handleAuth sample_bcrypt [] (register_as "alice" "secret")
                   no_users)).
Proof.
  apply (proj1 (@handleAuth_keeps_the_table sample_bcrypt []
                  (register_as "alice" "secret") no_users no_users_ok)).
Defined.


Lemma taken_name_is_refused_witness :
  let t := {| rows := [{| ID := 1; Username := "alice";
                          PasswordHash := "$2a$secret" |}];
              next_id := 2 |} in
  snd (@handleAuth sample_bcrypt [] (register_as "alice" "other") t)
  = {| rows := rows t; next_id := 3 |}.
Proof.
  intros t.
  assert (users_ok t) as Hok.
  { apply (users_ok_insert "alice" "$2a$secret" no_users no_users_ok).
    by intros []. }
  rewrite (@taken_name_is_refused sample_bcrypt [] "alice" "other" t
             {| ID := 1; Username := "alice"; PasswordHash := "$2a$secret" |}
             "$2a$other" Hok eq_refl ltac:(vm_compute; discriminate) eq_refl).
  reflexivity.
Defined.

End AuthFacts.

Module MessagesFacts.

Import Conn Messages.

Lemma swap_ends {A} (pre : list A) a m b post :
  <[(length pre + S (length m))%nat := a]>
    (<[length pre := b]> (pre ++ a :: m ++ b :: post))
  = pre ++ b :: m ++ a :: post.
Proof.
  rewrite (insert_app_r_alt pre _ (length pre)) by lia.
  rewrite Nat.sub_diag. simpl.
  rewrite insert_app_r_alt by lia.
  replace (length pre + S (length m) - length pre)%nat with (S (length m)) by lia.
  simpl. f_equal. f_equal.
  rewrite insert_app_r_alt by lia. by rewrite Nat.sub_diag.
Qed.

Lemma index_middle {A} (pre : list A) a post :
  index (pre ++ a :: post) (Z.of_nat (length pre)) = Some a.
Proof.
  unfold index. destruct (Z.ltb_spec (Z.of_nat (length pre)) 0); [lia|].
  rewrite Nat2Z.id. by rewrite list_lookup_middle.
Qed.

(** The loop, started on the two ends of a segment, reverses the segment
    and leaves what is around it. *)
Lemma reverse_loop_segment {A} fuel :
  forall (mid pre post : list A),
    (length mid < 2 * fuel)%nat ->
    reverse_loop fuel (Z.of_nat (length pre))
      (Z.of_nat (length pre) + Z.of_nat (length mid) - 1) (pre ++ mid ++ post)
    = Some (Ok (pre ++ rev mid ++ post)).
Proof.
  induction fuel as [|fuel IH]; intros mid pre post Hfuel; [lia|].
  destruct mid as [|a mid].
  { cbn [reverse_loop]. rewrite (proj2 (Z.ltb_ge _ _)) by (simpl; lia). done. }
  destruct (exists_last (l := a :: mid)) as (body & b & Hlast); [done|].
  destruct body as [|a' m].
  { (* one element *)
    simpl in Hlast. inversion Hlast; subst.
    cbn [reverse_loop]. rewrite (proj2 (Z.ltb_ge _ _)) by (simpl; lia). done. }
  simpl in Hlast. inversion Hlast; subst a' mid. clear Hlast.
  cbn [reverse_loop].
  rewrite length_cons, length_app in *. simpl length in *.
  rewrite (proj2 (Z.ltb_lt _ _)) by lia.
  replace (pre ++ (a :: m ++ [b]) ++ post) with (pre ++ a :: m ++ b :: post)
    by (simpl; by rewrite <- app_assoc).
  rewrite index_middle.
  replace (Z.of_nat (length pre) + Z.of_nat (S (length m + 1)) - 1)
    with (Z.of_nat (length (pre ++ a :: m))) by (rewrite length_app; simpl; lia).
  replace (pre ++ a :: m ++ b :: post) with ((pre ++ a :: m) ++ b :: post)
    by (by rewrite <- app_assoc).
  rewrite index_middle. rewrite !Nat2Z.id.
  replace ((pre ++ a :: m) ++ b :: post) with (pre ++ a :: m ++ b :: post)
    by (by rewrite <- app_assoc).
  replace (length (pre ++ a :: m)) with (length pre + S (length m))%nat
    by (rewrite length_app; simpl; lia).
  rewrite swap_ends.
  replace (pre ++ b :: m ++ a :: post) with ((pre ++ [b]) ++ m ++ (a :: post))
    by (by rewrite <- app_assoc).
  replace (Z.of_nat (length pre) + 1) with (Z.of_nat (length (pre ++ [b])))
    by (rewrite length_app; simpl; lia).
  replace (Z.of_nat (length pre + S (length m)) - 1)
    with (Z.of_nat (length (pre ++ [b])) + Z.of_nat (length m) - 1)
    by (rewrite length_app; simpl; lia).
  rewrite IH by lia. do 2 f_equal.
  simpl. rewrite rev_app_distr. simpl.
  by rewrite <- !app_assoc.
Qed.

Lemma collect_messages rows :
  forall msgs, collect rows msgs = msgs ++ scanned_messages rows.
Proof.
  unfold scanned_messages.
  induction rows as [|[r|] rows IH]; intros msgs; simpl.
  - by rewrite app_nil_r.
  - rewrite IH. by rewrite <- app_assoc.
  - apply IH.
Qed.

(** X12. [getConversationMessages] returns, without a panic, the rows that
    scan in the reverse of the order the query gave them (a row that does
    not scan is left out, a sender that is NULL gives an empty name): as the
    query gives the newest first, the caller gets the oldest first. *)
Theorem getConversationMessages_oldest_first rows :
  getConversationMessages rows = Some (Ok (rev (scanned_messages rows))) /\
  (newest_first (scanned_messages rows) ->
   oldest_first (rev (scanned_messages rows))).
Proof.
  split.
  - unfold getConversationMessages, reverse_in_place.
    rewrite collect_messages. simpl.
    pose proof (reverse_loop_segment (S (length (scanned_messages rows)))
                  (scanned_messages rows) [] []) as Hloop.
    simpl in Hloop. rewrite !app_nil_r in Hloop.
    replace (Z.of_nat (length (scanned_messages rows)) - 1)
      with (0 + Z.of_nat (length (scanned_messages rows)) - 1) by lia.
    apply Hloop. lia.
  - intros Hnew l1 a l2 b l3 Hrev.
    apply (Hnew (rev l3) b (rev l2) a (rev l1)).
    rewrite <- (rev_involutive (scanned_messages rows)), Hrev.
    rewrite rev_app_distr. simpl. rewrite rev_app_distr. simpl.
    by rewrite <- !app_assoc.
Qed.

End MessagesFacts.

Module ConnMore.

Import Conn ConnFacts.

Section WithStore.
Context `{Json} `{Store}.

Ltac not_among H :=
  repeat match type of H with
         | _ ∈ [] => by apply elem_of_nil in H
         | _ ∈ _ :: _ => apply elem_of_cons in H as [H|H]; [discriminate H|]
         end.

(** The cases of the switch other than auth, one after the other. *)
Ltac other_cases Hd :=
  unfold case_typing, case_check_user, case_create_conversation,
    case_get_messages, case_read_receipt, case_send_message,
    case_get_conversations, case_add_participant, case_rename_conversation,
    case_leave_conversation in Hd;
  repeat match type of Hd with
         | (if String.eqb (Type_ ?m) ?t then _ else _) = _ =>
             let Hty := fresh "Hty" in
             destruct (String.eqb_spec (Type_ m) t) as [Hty|Hty]
         end;
  repeat match type of Hd with
         | (if ?b then _ else _) = _ => let Hb := fresh "Hb" in destruct b eqn:Hb
         | match ?x with _ => _ end = _ => destruct x
         end;
  inversion Hd; subst; clear Hd.

(** X13. The identity of a connection changes in one way only: an auth
    message for which [handleAuth] returns a user. And it changes that way
    whatever the connection was before: nothing in the switch refuses a
    second authentication, so when the limiter grants the attempt and
    [handleAuth] returns a user, the client carries the new id and name, it
    is sent to [hub.register] once more, and the reply is queued, also on a
    connection that had a user id already. *)
Theorem identity_changes_only_by_auth clientIP now now' m c w :
  (fst (fst (dispatch clientIP now now' m c w)) <> c ->
   Type_ m = "auth"%string /\
   exists uid name d,
     handleAuth (Unmarshal_Auth (Payload m)) (w_db w) = (inr (uid, name), d) /\
     fst (fst (dispatch clientIP now now' m c w))
     = {| userID := uid; username := name |}) /\
  (forall uid name d,
      Type_ m = "auth"%string ->
      fst (RateLimit.CanAuth now now' clientIP (w_limiter w)) = true ->
      handleAuth (Unmarshal_Auth (Payload m)) (w_db w) = (inr (uid, name), d) ->
      dispatch clientIP now now' m c w
      = ({| userID := uid; username := name |},
         {| w_db := d;
            w_limiter := snd (RateLimit.CanAuth now now' clientIP (w_limiter w)) |},
         [HubRegister;
          Send (Marshal (auth_success uid name (getUserConversations uid d)))])).
Proof.
  split.
  - destruct (dispatch clientIP now now' m c w) as [[c' w'] outs] eqn:Hd.
    simpl. intros Hchanged. unfold dispatch in Hd.
    destruct (String.eqb_spec (Type_ m) "auth") as [Hty|_].
    { split; [done|]. unfold case_auth in Hd.
      destruct (RateLimit.CanAuth now now' clientIP (w_limiter w)) as [ok rl].
      destruct ok; simpl in Hd.
      - destruct (handleAuth (Unmarshal_Auth (Payload m)) (w_db w))
          as [[e|[uid name]] d] eqn:Hauth; inversion Hd; subst.
        + done.
        + by exists uid, name, d.
      - inversion Hd; subst. done. }
    other_cases Hd; done.
  - intros uid name d Hty Hcan Hauth.
    rewrite (dispatch_auth _ _ _ _ _ _ Hty). cbv zeta.
    by rewrite Hcan, Hauth.
Qed.

(** X14. Before authentication a message other than auth changes nothing on
    the server: the client and the server state are as they were, nothing is
    broadcast or registered, and the only thing that can be sent back is a
    user_check_result. *)
Theorem unauthenticated_changes_nothing clientIP now now' m c w :
  userID c = 0 -> Type_ m <> "auth"%string ->
  fst (dispatch clientIP now now' m c w) = (c, w) /\
  forall o, o ∈ snd (dispatch clientIP now now' m c w) ->
            exists name e, o = Send (Marshal (user_check_result name e)).
Proof.
  intros Hid Hauth.
  destruct (String.eqb_spec (Type_ m) "check_user") as [Hcheck|Hcheck].
  - unfold dispatch. apply String.eqb_neq in Hauth. rewrite Hauth.
    assert (String.eqb (Type_ m) "typing" = false) as ->
      by (rewrite Hcheck; reflexivity).
    rewrite Hcheck. simpl. split; [done|].
    intros o Ho. apply list_elem_of_singleton in Ho as ->. by eexists _, _.
  - pose proof (unauthenticated_ignored clientIP now now' m c w Hid Hauth Hcheck)
      as Hign.
    unfold ignored in Hign. rewrite Hign. simpl.
    split; [done|]. intros o Ho. by apply elem_of_nil in Ho.
Qed.

(** X15. Only a connection with a user id makes the hub broadcast, and only
    by a typing or a send_message message. *)
Theorem broadcast_needs_authentication clientIP now now' m c w resp :
  HubBroadcast resp ∈ snd (dispatch clientIP now now' m c w) ->
  userID c <> 0 /\
  (Type_ m = "typing"%string \/ Type_ m = "send_message"%string).
Proof.
  destruct (dispatch clientIP now now' m c w) as [[c' w'] outs] eqn:Hd.
  simpl. intros Hin. unfold dispatch in Hd.
  destruct (String.eqb_spec (Type_ m) "auth") as [Hty|_].
  { unfold case_auth in Hd.
    destruct (RateLimit.CanAuth now now' clientIP (w_limiter w)) as [ok rl].
    destruct ok; simpl in Hd.
    - destruct (handleAuth (Unmarshal_Auth (Payload m)) (w_db w))
        as [[e|[uid name]] d]; inversion Hd; subst; not_among Hin.
    - inversion Hd; subst. not_among Hin. }
  other_cases Hd; not_among Hin;
    (split; [by apply Z.eqb_neq | auto]).
Qed.

(** X16. An auth message goes through [CanAuth] under the key of the
    connection, and the attempt is recorded exactly when [CanAuth] grants
    it, whether the login then succeeds or fails: a granted attempt adds its
    timestamp to the record of the key; a refused one adds nothing, is
    answered with the error and does not reach [handleAuth], so the users
    table is as it was. No record of another key changes, and no message
    other than auth touches the rate limiter. *)
Theorem limiter_records_granted_auth clientIP now now' m c w :
  let rl := w_limiter w in
  let rl' := w_limiter (snd (fst (dispatch clientIP now now' m c w))) in
  (Type_ m <> "auth"%string -> rl' = rl) /\
  (Type_ m = "auth"%string ->
   rl' = snd (RateLimit.CanAuth now now' clientIP rl) /\
   (fst (RateLimit.CanAuth now now' clientIP rl) = true ->
    RateLimit.attempts rl' clientIP
    = RateLimit.recent_of now (RateLimit.attempts rl clientIP) ++ [now']) /\
   (fst (RateLimit.CanAuth now now' clientIP rl) = false ->
    RateLimit.attempts rl' clientIP
    = RateLimit.recent_of now (RateLimit.attempts rl clientIP) /\
    dispatch clientIP now now' m c w
    = (c, {| w_db := w_db w; w_limiter := rl' |},
       [Send (Marshal (auth_error
                         "Too many login attempts. Please wait a minute."))])) /\
   (forall ip, ip <> clientIP ->
               RateLimit.attempts rl' ip = RateLimit.attempts rl ip)).
Proof.
  intros rl rl'. subst rl rl'.
  rewrite (dispatch_limiter clientIP now now' m c w). split.
  - intros Hty. apply String.eqb_neq in Hty. by rewrite Hty.
  - intros Hty. rewrite Hty. simpl. split; [done|]. split; [|split].
    + intros Hcan. by rewrite RateLimitFacts.attempts_CanAuth, Hcan.
    + intros Hcan. split.
      * by rewrite RateLimitFacts.attempts_CanAuth, Hcan.
      * rewrite (dispatch_auth _ _ _ _ _ _ Hty). cbv zeta. by rewrite Hcan.
    + intros ip Hne. by apply RateLimitFacts.attempts_CanAuth_other.
Qed.

End WithStore.

Import Auth.

(** Alice is logged in; a register message for bob on her connection makes
    it bob's. *)
Lemma identity_changes_only_by_auth_witness :
  let m := {| Type_ := "auth"; Payload := [Byte.x01] |} in
  let alice := {| userID := 1; username := "alice" |} in
  fst (fst (@dispatch sample_json sample_store "10.0.0.1" 0 0 m alice
              sample_world))
  = {| userID := 2; username := "bob" |} /\
  snd (@dispatch sample_json sample_store "10.0.0.1" 0 0 m alice sample_world)
  = [HubRegister; Send [Byte.x02]].
Proof.
  intros m alice.
  rewrite (proj2 (@identity_changes_only_by_auth sample_json sample_store
                    "10.0.0.1" 0 0 m alice sample_world)
             2 "bob"%string
             {| rows := rows alice_registered
                        ++ [{| ID := 2; Username := "bob";
                               PasswordHash := "$2a$hunter2" |}];
                next_id := 3 |}
             eq_refl eq_refl eq_refl).
  split; reflexivity.
Defined.

(** The sixth login within the minute is refused and leaves no trace. *)
Lemma limiter_records_granted_auth_witness :
  let m := {| Type_ := "auth"; Payload := [] |} in
  let w := {| w_db := alice_registered : @db sample_store;
              w_limiter :=
                {| RateLimit.connections := ∅;
                   RateLimit.authAttempts := {[ "10.0.0.1"%string := [1; 2; 3; 4; 5] ]};
                   RateLimit.maxConns := 10;
                   RateLimit.maxAuth := 5 |} |} in
  RateLimit.attempts
    (w_limiter (snd (fst (@dispatch sample_json sample_store "10.0.0.1" 6 6 m
                            new_client w)))) "10.0.0.1"
  = [1; 2; 3; 4; 5] /\
  snd (@dispatch sample_json sample_store "10.0.0.1" 6 6 m new_client w)
  = [Send [Byte.x01]].
Proof.
  intros m w.
  destruct (proj2 (@limiter_records_granted_auth sample_json sample_store
                     "10.0.0.1" 6 6 m new_client w) eq_refl)
    as (_ & _ & Hrefused & _).
  destruct (Hrefused eq_refl) as [Hatt Hd].
  split; [exact Hatt|]. by rewrite Hd.
Defined.

Lemma unauthenticated_changes_nothing_witness :
  fst (@dispatch sample_json sample_store "10.0.0.1" 0 0
         {| Type_ := "send_message"; Payload := [] |} new_client sample_world)
  = (new_client, sample_world).
Proof.
  apply (proj1 (@unauthenticated_changes_nothing sample_json sample_store
                  "10.0.0.1" 0 0 {| Type_ := "send_message"; Payload := [] |}
                  new_client sample_world eq_refl ltac:(discriminate))).
Defined.

Lemma broadcast_needs_authentication_witness :
  userID {| userID := 1; username := "alice" |} <> 0 /\
  (Type_ {| Type_ := "typing"; Payload := [] |} = "typing"%string \/
   Type_ {| Type_ := "typing"; Payload := [] |} = "send_message"%string).
Proof.
  apply (@broadcast_needs_authentication sample_json sample_store
           "10.0.0.1" 0 0 {| Type_ := "typing"; Payload := [] |}
           {| userID := 1; username := "alice" |} sample_world [Byte.x03]).
  vm_compute. constructor.
Defined.

End ConnMore.

Module SessionMore.

Import Session SessionFacts.

Section WithLib.
Context `{GoLib}.

Lemma first_readable_same paths env env' :
  (forall p, In p paths -> files env' !! p = files env !! p) ->
  first_readable paths env' = first_readable paths env.
Proof.
  induction paths as [|p paths IH]; intros Hsame; simpl; [done|].
  rewrite (Hsame p) by (by left).
  destruct (files env !! p); [done|]. apply IH.
  intros q Hq. apply Hsame. by right.
Qed.

(** X17. The key comes from the two machine-id files and the host name and
    from nothing else on the machine. The first file that can be read
    decides: when /etc/machine-id is there but blank, the key is made from
    the host name, and /var/lib/dbus/machine-id is not looked at. *)
Theorem encryption_key_source env :
  (forall env',
      files env' !! "/etc/machine-id"%string = files env !! "/etc/machine-id"%string ->
      files env' !! "/var/lib/dbus/machine-id"%string
      = files env !! "/var/lib/dbus/machine-id"%string ->
      hostname env' = hostname env ->
      getEncryptionKey env' = getEncryptionKey env) /\
  (forall data,
      files env !! "/etc/machine-id"%string = Some data ->
      getEncryptionKey env
      = sha256_Sum256 (if is_empty (strings_TrimSpace data)
                       then hostname env else strings_TrimSpace data)) /\
  (files env !! "/etc/machine-id"%string = None ->
   files env !! "/var/lib/dbus/machine-id"%string = None ->
   getEncryptionKey env = sha256_Sum256 (hostname env)).
Proof.
  split; [|split].
  - intros env' H1 H2 Hhost. unfold getEncryptionKey.
    rewrite (first_readable_same _ env env'), Hhost; [done|].
    intros p [<-|[<-|[]]]; done.
  - intros data Hdata. unfold getEncryptionKey. simpl. by rewrite Hdata.
  - intros H1 H2. unfold getEncryptionKey. simpl. by rewrite H1, H2.
Qed.

(** What [Save] returns when it does not fail. *)
Lemma Save_succeeds profileName url user pass env env' :
  Save profileName url user pass env = (Value tt, env') ->
  GetConfigDir profileName env <> EmptyString /\
  exists c,
    encrypt (json_Marshal {| ServerURL := url; Username := user;
                             Password := pass |}) env = Value c /\
    env' = leaves env
             (<[session_path (GetConfigDir profileName env) := c]> (files env))
             (dirs env ∪ mkdir_makes env).
Proof.
  unfold Save. intros Hsave.
  destruct (String.eqb_spec (GetConfigDir profileName env) EmptyString)
    as [|Hdir]; [done|].
  destruct (negb (mkdir_ok env)); [done|].
  destruct (encrypt _ env) as [c|e|w]; [|done|done].
  destruct (write_ok env); [|done].
  inversion Hsave; subst. split; [done|]. by exists c.
Qed.

(** X18. [Save] and [Clear] touch nothing on the machine but the session
    file and the directories [os.MkdirAll] makes: every other file is as it
    was, and with no configuration directory neither of them changes
    anything. A [Save] that gets past that point makes the directories,
    whether it then fails or not; when it fails, the session file is as it
    was, unless it is the write that failed after the file was opened: the
    file then holds the first bytes of the new text and no more. [Clear]
    removes the session file when [os.Remove] succeeds, and a [Load] then
    finds no session; when [os.Remove] fails the machine is as it was, the
    session file included. *)
Theorem save_and_clear_touch_one_file profileName url user pass env :
  let dir := GetConfigDir profileName env in
  let path := session_path dir in
  let saved := Save profileName url user pass env in
  (forall p, p <> path ->
     files (snd saved) !! p = files env !! p /\
     files (Clear profileName env) !! p = files env !! p) /\
  (dir = EmptyString -> snd saved = env /\ Clear profileName env = env) /\
  (dir <> EmptyString ->
     dirs (snd saved) = dirs env ∪ mkdir_makes env /\
     dirs (Clear profileName env) = dirs env) /\
  (fst saved <> Value tt ->
     files (snd saved) !! path = files env !! path \/
     exists c n,
       write_ok env = false /\ write_fault env = Some n /\
       encrypt (json_Marshal {| ServerURL := url; Username := user;
                                Password := pass |}) env = Value c /\
       files (snd saved) !! path = Some (firstn n c)) /\
  (remove_ok env = true ->
     Load profileName (Clear profileName env)
     = (Value None, Clear profileName env)) /\
  (remove_ok env = false -> Clear profileName env = env).
Proof.
  intros dir path saved. subst dir path saved.
  split; [|split; [|split; [|split; [|split]]]].
  - intros p Hp. split.
    + unfold Save. destruct (String.eqb _ _); [done|].
      destruct (negb _); [done|].
      destruct (encrypt _ env); [|done|done].
      destruct (write_ok env); simpl; [by rewrite lookup_insert_ne|].
      destruct (write_fault env); [by rewrite lookup_insert_ne | done].
    + unfold Clear. destruct (negb _); [|done].
      destruct (remove_ok env); [|done]. simpl. by rewrite lookup_delete_ne.
  - intros Hdir. unfold Save, Clear. by rewrite Hdir.
  - intros Hdir. apply String.eqb_neq in Hdir. unfold Save, Clear.
    rewrite Hdir. simpl. split.
    + destruct (negb _); [done|].
      destruct (encrypt _ env); [|done|done]. by destruct (write_ok env).
    + by destruct (remove_ok env).
  - unfold Save. destruct (String.eqb _ _); [by left|].
    destruct (negb _); [by left|].
    destruct (encrypt _ env) as [c|e|w] eqn:Henc; [|by left|by left].
    destruct (write_ok env) eqn:Hwr; simpl; [by intros []|].
    intros _. destruct (write_fault env) as [n|] eqn:Hflt; [|by left].
    right. exists c, n. split; [done|]. split; [done|]. split; [done|].
    apply lookup_insert_eq.
  - intros Hrm. unfold Load, Clear. rewrite Hrm.
    destruct (String.eqb_spec (GetConfigDir profileName env) EmptyString)
      as [Hdir|Hdir]; simpl.
    + by rewrite Hdir.
    + unfold GetConfigDir in *. simpl.
      apply String.eqb_neq in Hdir. rewrite Hdir.
      by rewrite lookup_delete_eq.
  - intros Hrm. unfold Clear. rewrite Hrm. by destruct (negb _).
Qed.

Context `{!GoLibLaws}.

(** X19. What [Save] wrote, [Load] reads back: after a [Save] that returned
    no error, [Load] decrypts the file, returns what the JSON decoder makes
    of the marshalled session and writes nothing (provided the session file
    is not one of the two machine-id files the key is made from). *)
Theorem Save_then_Load profileName url user pass env env' :
  Save profileName url user pass env = (Value tt, env') ->
  session_path (GetConfigDir profileName env) <> "/etc/machine-id"%string ->
  session_path (GetConfigDir profileName env) <> "/var/lib/dbus/machine-id"%string ->
  Load profileName env'
  = (Value (json_Unmarshal
              (json_Marshal {| ServerURL := url; Username := user;
                               Password := pass |})), env').
Proof.
  intros Hsave Hp1 Hp2.
  destruct (Save_succeeds _ _ _ _ _ _ Hsave) as (Hdir & c & Henc & ->).
  destruct (read_nonce_cases env) as [(nonce & _ & Hent & Hlen)|(e & Herr)].
  2:{ unfold encrypt in Henc. rewrite key_accepted in Henc. simpl in Henc.
      rewrite Herr in Henc. done. }
  rewrite (encrypt_value _ env nonce Hent Hlen) in Henc.
  inversion Henc; subst c; clear Henc.
  set (env' := leaves env _ _).
  assert (getEncryptionKey env' = getEncryptionKey env) as Hkey.
  { unfold getEncryptionKey.
    rewrite (first_readable_same _ env env'); [done|].
    intros p [<-|[<-|[]]]; unfold env'; simpl; by rewrite lookup_insert_ne. }
  unfold Load.
  assert (GetConfigDir profileName env' = GetConfigDir profileName env) as ->
    by reflexivity.
  apply String.eqb_neq in Hdir. rewrite Hdir.
  assert (files env' !! session_path (GetConfigDir profileName env)
          = Some (base64_EncodeToString
                    (nonce ++ gcm_seal (getEncryptionKey env) nonce
                       (json_Marshal {| ServerURL := url; Username := user;
                                        Password := pass |})))) as ->.
  { unfold env'; simpl. apply lookup_insert_eq. }
  rewrite <- Hkey. rewrite (decrypt_sealed _ env' nonce Hlen).
  by destruct (json_Unmarshal _).
Qed.

End WithLib.

(** A [Save] that fails in the middle of the write leaves five bytes in the
    session file, and the session that was there is lost: [Load] finds
    none. A [Clear] that fails leaves the file. *)
Lemma save_and_clear_touch_one_file_witness :
  let path := "/home/alice/.config/cldzmsg/default/session.json"%string in
  let saved := @Save sample_lib "default" "ws://chat/ws" "alice" "secret"
                 failing_disk in
  fst saved = Error "write failed" /\
  (exists c,
      @encrypt sample_lib (@json_Marshal sample_lib sample_session) failing_disk
      = Value c /\
      files (snd saved) !! path = Some (firstn 5 c)) /\
  fst (@Load sample_lib "default" (snd saved)) = Value None /\
  @Clear sample_lib "default" failing_disk = failing_disk.
Proof.
  intros path saved.
  destruct (@save_and_clear_touch_one_file sample_lib "default" "ws://chat/ws"
              "alice" "secret" failing_disk)
    as (_ & _ & _ & Hfail & _ & Hkeep).
  split; [reflexivity|]. split; [|split].
  - destruct Hfail as [Hsame|(c & n & _ & Hn & Hc & Hfile)].
    + subst saved. vm_compute. discriminate.
    + vm_compute in Hsame. by inversion Hsame.
    + exists c. split; [exact Hc|].
      assert (n = 5%nat) as -> by (vm_compute in Hn; by inversion Hn).
      exact Hfile.
  - vm_compute. reflexivity.
  - by apply Hkeep.
Defined.

Lemma Save_then_Load_witness :
  exists env',
    @Save sample_lib "default" "ws://chat/ws" "alice" "secret" legacy_machine
    = (Value tt, env') /\
    @Load sample_lib "default" env' = (Value (Some sample_session), env').
Proof.
  destruct (@Save sample_lib "default" "ws://chat/ws" "alice" "secret"
              legacy_machine) as [r env'] eqn:Hsave.
  assert (r = Value tt) as -> by (vm_compute in Hsave; by inversion Hsave).
  exists env'. split; [done|].
  rewrite (@Save_then_Load sample_lib sample_laws "default" "ws://chat/ws"
             "alice" "secret" legacy_machine env' Hsave
             ltac:(vm_compute; discriminate) ltac:(vm_compute; discriminate)).
  reflexivity.
Defined.

End SessionMore.

Module ReconnectMore.

Import Reconnect ReconnectFacts.

(** X20. In the three cases of [Update] that deal with the connection
    ([wsConnected], [wsError], [wsReconnect]) the counter stays between 0
    and 5, and the only delay these three cases schedule is that of a
    reconnection: as many seconds as the counter then shows, so between 1s
    and 5s; a connection puts the counter back to 0 and clears the banner,
    whatever came before. (The tick of 3 seconds of the typing indicator
    belongs to the [wsIncoming] case, which is not one of the three and
    does not write the counter.) *)
Theorem counter_stays_in_range m ms :
  0 <= reconnectCount m <= 5 ->
  0 <= reconnectCount (fst (Update m ms)) <= 5 /\
  (forall d ms', snd (Update m ms) = Tick d ms' ->
     ms' = wsReconnect /\
     d = reconnectCount (fst (Update m ms)) * second /\
     1 <= reconnectCount (fst (Update m ms))) /\
  (forall c, ms = wsConnected c ->
     reconnectCount (fst (Update m ms)) = 0 /\
     connected (fst (Update m ms)) = true /\
     isReconnecting (fst (Update m ms)) = false).
Proof.
  intros Hrange. destruct ms as [c|e|]; simpl.
  - split; [|split].
    + destruct (isLoading m); simpl; [lia|].
      destruct (savedSession m); simpl; lia.
    + intros d ms' Htick.
      destruct (isLoading m); simpl in Htick; [done|].
      destruct (savedSession m); simpl in Htick; done.
    + intros c' _. destruct (isLoading m); simpl; [done|].
      by destruct (savedSession m).
  - destruct (Z.ltb_spec (reconnectCount m) 5) as [Hlt|Hge]; simpl.
    + rewrite wrap64_small by lia. split; [lia|]. split; [|done].
      intros d ms' Htick. inversion Htick; subst.
      split; [done|]. split; [|lia].
      rewrite wrap64_small; [lia|]. unfold second. lia.
    + split; [lia|]. split; done.
  - split; [lia|]. split; done.
Qed.

Lemma counter_stays_in_range_witness :
  let m' := fst (Update (online "ws://chat/ws" "alice" "secret")
                   (wsError "read error")) in
  0 <= reconnectCount m' <= 5 /\ 1 <= reconnectCount m'.
Proof.
  intros m'.
  destruct (counter_stays_in_range (online "ws://chat/ws" "alice" "secret")
              (wsError "read error") ltac:(simpl; lia)) as (Hrange & Htick & _).
  split; [exact Hrange|].
  by destruct (Htick (1 * second) wsReconnect eq_refl) as (_ & _ & Hpos).
Defined.

(** X21. After the first dial of the login form, a connector that fails [k]
    times and then connects brings the client online when [k] is at most 5,
    after [k + 1] dials and the delays 1s, ..., [k]s, with the counter back
    at 0; when [k] is 6 or more the client gives up after its sixth dial and
    the connection that would have come is never tried. *)
Theorem first_dial_outcome m k fuel :
  reconnectCount m = 0 -> (13 <= fuel)%nat ->
  exists m',
    enter fuel (fails_then_connects k) FirstDial m
    = (if Nat.leb k 5 then Connected_ else Stopped, m',
       {| delays := first_seconds (Nat.min k 5); dials := S (Nat.min k 5) |}) /\
    if Nat.leb k 5 then reconnected m' else gave_up m'.
Proof.
  intros H0.
  do 6 (destruct k as [|k];
        [apply (enough_fuel _ _ _ 13%nat); [|done];
         unfold reconnected; cbn [Nat.leb Nat.min]; run_model m H0|]).
  apply (enough_fuel _ _ _ 13%nat); [|done].
  unfold gave_up; cbn [Nat.leb Nat.min]; run_model m H0.
Qed.

Lemma first_dial_outcome_witness :
  exists m',
    enter 13 (fails_then_connects 2) FirstDial
      (submitted "ws://chat/ws" "alice" "secret")
    = (Connected_, m', {| delays := seconds [1; 2]; dials := 3 |}) /\
    reconnected m'.
Proof.
  apply (first_dial_outcome (submitted "ws://chat/ws" "alice" "secret")
           2%nat 13%nat eq_refl).
  lia.
Defined.

End ReconnectMore.
